(** * p2pool-go wire codec: a shallow embedding of [wire/readwrite.go]

    The Go functions of [wire/readwrite.go] are embedded as Rocq functions
    over explicit stream state.

    - An [io.Reader] is the in-memory reader of Go's [bytes.Reader]: the
      state is the list of bytes not yet read.  One [Read] hands out all
      the bytes asked for when that many are left.
    - An [io.Writer] is the in-memory sink of Go's [bytes.Buffer]: the state
      is the list of bytes written so far, and a [Write] takes all it is
      given.
    - A Go function returning [(T, error)] becomes a computation in the
      monad [M], whose outcome is [Ok v] (the error is nil), [Err e] (the
      error is non-nil) or [Panic msg] (a run-time panic).  The value that Go
      returns next to a non-nil error (a partly filled struct or list) is
      not kept.  The stream state is threaded through all three outcomes.
    - Unsigned and signed machine integers are [Z], with truncation written
      out; [*big.Int] is [Z]; [*chainhash.Hash] is [option Hash]; a Go
      string is the list of its bytes.
    - Calls to the loggers ([log.Printf], [logging.Debugf]) have no effect
      on the streams or the results and are left out. *)

From Stdlib Require Import ZArith List Lia Bool String.
From Stdlib Require Import Strings.Byte.
Import ListNotations.
Local Open Scope Z_scope.

(** ** Bytes *)

(** Go's conversion [uint8(z)]: the low eight bits. *)
Definition byte_of_Z (z : Z) : byte :=
  match Byte.of_N (Z.to_N (z mod 256)) with
  | Some b => b
  | None => x00
  end.

Definition Z_of_byte (b : byte) : Z := Z.of_N (Byte.to_N b).

(** Go's [len] of a slice, as an [int]. *)
Definition len {A : Type} (l : list A) : Z := Z.of_nat (List.length l).

(** ** Errors and outcomes *)

(** The error values this file can produce: the two sentinels of package
    [io], and [fmt.Errorf] with its format string and integer arguments. *)
Inductive error : Type :=
| EOF
| ErrUnexpectedEOF
| Errorf (format : string) (args : list Z).

Inductive result (A : Type) : Type :=
| Ok (a : A)
| Err (e : error)
| Panic (msg : string).
Arguments Ok {A} a.
Arguments Err {A} e.
Arguments Panic {A} msg.

(** A computation over a stream state [S]. *)
Definition M (S A : Type) : Type := S -> result A * S.

Definition ret {S A : Type} (a : A) : M S A := fun s => (Ok a, s).

Definition bind {S A B : Type} (m : M S A) (k : A -> M S B) : M S B :=
  fun s =>
    match m s with
    | (Ok a, s') => k a s'
    | (Err e, s') => (Err e, s')
    | (Panic msg, s') => (Panic msg, s')
    end.

(** [return zero, e] *)
Definition fail {S A : Type} (e : error) : M S A := fun s => (Err e, s).

Definition panic {S A : Type} (msg : string) : M S A := fun s => (Panic msg, s).

(** [if err != nil { return zero, err }] *)
Definition check {S : Type} (err : option error) : M S unit :=
  match err with
  | Some e => fail e
  | None => ret tt
  end.

(** A call whose error result is dropped by the caller. *)
Definition discard {S A : Type} (m : M S A) : M S unit :=
  fun s =>
    match m s with
    | (Panic msg, s') => (Panic msg, s')
    | (_, s') => (Ok tt, s')
    end.

Declare Scope go_scope.
Delimit Scope go_scope with go.
Notation "x <- m ;; k" := (bind m (fun x => k))
  (at level 61, m at next level, right associativity) : go_scope.
Notation "' pat <- m ;; k" := (bind m (fun x => match x with pat => k end))
  (at level 61, pat pattern, m at next level, right associativity) : go_scope.
Notation "m ;; k" := (bind m (fun _ => k))
  (at level 61, right associativity) : go_scope.
Local Open Scope go_scope.

(** ** Package io *)
Module io.

(** The unread bytes of an in-memory reader. *)
Definition Reader : Type := list byte.

(** The bytes written so far to an in-memory sink. *)
Definition Writer : Type := list byte.

(** [r.Read(b)] with [len(b) = n], as [bytes.Reader] does it: at the end
    of the data it returns [0, io.EOF]; otherwise it copies as many bytes
    as are there, at most [n], and returns a nil error.  The result is the
    bytes copied (their count is Go's [n]) and the error. *)
Definition Read (n : Z) : M Reader (list byte * option error) :=
  fun r =>
    match r with
    | [] => (Ok ([], Some EOF), [])
    | _ :: _ =>
        let k := Z.to_nat (Z.min n (len r)) in
        (Ok (firstn k r, None), skipn k r)
    end.

(** [io.ReadFull(r, buf)] with [len(buf) = n] over that reader: all [n]
    bytes and a nil error, or [io.EOF] when no byte was read, or
    [io.ErrUnexpectedEOF] when the data ended after some bytes. *)
Definition ReadFull (n : Z) : M Reader (list byte * option error) :=
  fun r =>
    if n <=? 0 then (Ok ([], None), r)
    else if n <=? len r then
      let k := Z.to_nat n in (Ok (firstn k r, None), skipn k r)
    else
      match r with
      | [] => (Ok ([], Some EOF), [])
      | _ :: _ => (Ok (r, Some ErrUnexpectedEOF), [])
      end.

(** [w.Write(p)] as [bytes.Buffer] does it: all of [p] is appended; the
    result is the count written and a nil error. *)
Definition Write (p : list byte) : M Writer (Z * option error) :=
  fun w => (Ok (len p, None), w ++ p).

End io.

(** ** Package encoding/binary *)
Module binary.

(** [binary.LittleEndian.PutUintN] for a field of [n] bytes. *)
Fixpoint PutUint (n : nat) (v : Z) : list byte :=
  match n with
  | O => []
  | S n' => byte_of_Z v :: PutUint n' (Z.shiftr v 8)
  end.

(** [binary.LittleEndian.UintN]:
    [b[0] | b[1]<<8 | b[2]<<16 | ...]. *)
Fixpoint Uint (bs : list byte) : Z :=
  match bs with
  | [] => 0
  | b :: bs' => Z.lor (Z_of_byte b) (Z.shiftl (Uint bs') 8)
  end.

(** The fixed-size integer types that [readwrite.go] passes to
    [binary.Read] and [binary.Write]. *)
Inductive kind : Type := uint8 | uint16 | uint32 | uint64 | int8.

Definition size (t : kind) : nat :=
  match t with
  | uint8 | int8 => 1
  | uint16 => 2
  | uint32 => 4
  | uint64 => 8
  end%nat.

(** Decoding of the bytes read; [int8] reinterprets the byte as signed. *)
Definition decode (t : kind) (bs : list byte) : Z :=
  match t with
  | int8 => let u := Uint bs in if u <? 128 then u else u - 256
  | _ => Uint bs
  end.

(** [err := binary.Read(r, binary.LittleEndian, &x)], where [old] is the
    value of [x] before the call.  On a short read the error of
    [io.ReadFull] is returned and [x] keeps its value.  The result is the
    value of [x] after the call and the error. *)
Definition Read (t : kind) (old : Z) : M io.Reader (Z * option error) :=
  '(bs, err) <- io.ReadFull (Z.of_nat (size t)) ;;
  match err with
  | Some e => ret (old, Some e)
  | None => ret (decode t bs, None)
  end.

(** [binary.Write(w, binary.LittleEndian, x)]: the encoded bytes go to
    the sink in one [Write], whose error is returned. *)
Definition Write (t : kind) (x : Z) : M io.Writer (option error) :=
  '(_, err) <- io.Write (PutUint (size t) x) ;;
  ret err.

(** [binary.Read] and [binary.Write] at the type [int32], which
    [ReadSmallBlockHeader] and [WriteSmallBlockHeader] use for the version:
    four little-endian bytes, read as a two's-complement integer. *)
Definition decode_int32 (bs : list byte) : Z :=
  let u := Uint bs in if u <? 2 ^ 31 then u else u - 2 ^ 32.

Definition Read_int32 (old : Z) : M io.Reader (Z * option error) :=
  '(bs, err) <- io.ReadFull 4 ;;
  match err with
  | Some e => ret (old, Some e)
  | None => ret (decode_int32 bs, None)
  end.

Definition Write_int32 (x : Z) : M io.Writer (option error) :=
  '(_, err) <- io.Write (PutUint 4 x) ;;
  ret err.

End binary.

(** ** Package math/big *)
Module big.

(** [x.Bytes()]: the absolute value of [x] as a big-endian byte slice
    without leading zero bytes (the empty slice for zero). *)
Definition Bytes (x : Z) : list byte :=
  let a := Z.abs x in
  if a =? 0 then []
  else rev (binary.PutUint (Z.to_nat (Z.log2 a / 8 + 1)) a).

(** [big.NewInt(0).SetBytes(buf)]: [buf] read as a big-endian unsigned
    integer. *)
Definition SetBytes (buf : list byte) : Z :=
  fold_left (fun acc b => acc * 256 + Z_of_byte b) buf 0.

End big.

(** ** Package chainhash (btcd) *)
Module chainhash.

Definition HashSize : Z := 32.

(** [type Hash [HashSize]byte].  A value built by [NewHash] holds
    exactly [HashSize] bytes. *)
Definition Hash : Type := list byte.

(** [chainhash.NewHash(b)]: a new hash holding a copy of [b], or an
    error when [b] is not [HashSize] bytes long. *)
Definition NewHash {S : Type} (b : list byte) : M S (option Hash) :=
  if len b =? HashSize then ret (Some b)
  else fail (Errorf "invalid hash length of %v, want %v" [len b; HashSize]).

(** [hash.CloneBytes()]: a copy of the bytes of the hash. *)
Definition CloneBytes (hash : Hash) : list byte := hash.

End chainhash.

(** ** The built-in [copy] and package net *)

(** [copy(dst, src)]: the first [min(len(dst), len(src))] bytes of [dst]
    are overwritten with those of [src]; the result is [dst] afterwards. *)
Definition copy (dst src : list byte) : list byte :=
  firstn (List.length dst) src ++ skipn (List.length src) dst.

Module net.

(** [type IP []byte] *)
Definition IP : Type := list byte.

Definition v4InV6Prefix : list byte := repeat x00 10 ++ [xff; xff].

(** [net.IPv4(a, b, c, d)]: the 16-byte form of an IPv4 address. *)
Definition IPv4 (a b c d : byte) : IP := v4InV6Prefix ++ [a; b; c; d].

(** [ip.To16()]: a 4-byte address in its 16-byte form, a 16-byte address
    as it is, and nil (the empty slice) for any other length. *)
Definition To16 (ip : IP) : IP :=
  match ip with
  | [a; b; c; d] => IPv4 a b c d
  | _ => if len ip =? 16 then ip else []
  end.

End net.

(** ** Package wire: [readwrite.go] *)
Module wire.

Import binary.

Definition MaxUint16 : Z := 0xffff.
Definition MaxUint32 : Z := 0xffffffff.

Definition ReadVarInt : M io.Reader Z :=
  '(discriminant, err) <- binary.Read uint8 0 ;;
  check err ;;
  if discriminant =? 0xff then
    '(rv, err) <- binary.Read uint64 0 ;;
    check err ;;
    let min := 0x100000000 in
    if rv <? min then
      fail (Errorf "Varint not canonically packed -- uint64" [])
    else ret rv
  else if discriminant =? 0xfe then
    (* the error of this read is not assigned to [err] *)
    '(sv, _) <- binary.Read uint32 0 ;;
    check err ;;
    let rv := sv in
    let min := 0x10000 in
    if rv <? min then
      fail (Errorf "Varint not canonically packed -- uint32" [])
    else ret rv
  else if discriminant =? 0xfd then
    (* the error of this read is not assigned to [err] *)
    '(sv, _) <- binary.Read uint16 0 ;;
    check err ;;
    let rv := sv in
    let min := 0xfd in
    if rv <? min then
      fail (Errorf "Varint not canonically packed -- uint16" [])
    else ret rv
  else
    ret discriminant.

(** [val] is a [uint64]. *)
Definition WriteVarInt (val : Z) : M io.Writer unit :=
  if val <? 0xfd then
    err <- binary.Write uint8 val ;;
    check err
  else if val <=? MaxUint16 then
    err <- binary.Write uint8 0xfd ;;
    check err ;;
    err <- binary.Write uint16 val ;;
    check err
  else if val <=? MaxUint32 then
    err <- binary.Write uint8 0xfe ;;
    check err ;;
    err <- binary.Write uint32 val ;;
    check err
  else
    err <- binary.Write uint8 0xff ;;
    check err ;;
    err <- binary.Write uint64 val ;;
    check err.

(** [make([]byte, n)] for a [uint64] length [n]: the run-time system
    panics when the length is over its allocation limit, [1<<48] bytes
    on linux/amd64.  A length up to that limit is taken here as
    allocated.  The real run-time system can instead stop the program with
    a fatal out-of-memory error when the machine cannot provide the bytes
    (it does so at exactly [1<<48]); that is neither an error nor a panic,
    and there is no outcome for it here.  What is proved about a declared
    length that no bytes of the stream back is therefore stated for the
    case that the call returns. *)
Definition maxAlloc : Z := 2 ^ 48.

Definition make_bytes {S : Type} (n : Z) : M S unit :=
  if maxAlloc <? n then panic "runtime error: makeslice: len out of range"
  else ret tt.

(** [n] is the variable that Go names [len]; after [make] has accepted
    it, [int(n)] is [n]. *)
Definition ReadVarString : M io.Reader (list byte) :=
  n <- ReadVarInt ;;
  make_bytes n ;;
  (* the error of this read is never looked at *)
  '(b, _) <- io.Read n ;;
  if negb (len b =? n) then
    fail (Errorf "Could not read all string bytes" [])
  else ret b.

Definition ReadIPAddr : M io.Reader (list byte) :=
  '(b, err) <- io.Read 16 ;;
  if negb (len b =? 16) then
    fail (Errorf "Unable to read IP address" [])
  else
    check err ;;
    ret b.

Definition WriteBigInt256 (i : Z) : M io.Writer unit :=
  let b := repeat x00 32 in
  let numBytes := big.Bytes i in
  let b := b ++ numBytes in
  '(l, err) <- io.Write (skipn (List.length b - 32) b) ;;
  if negb (l =? 32) then
    fail (Errorf "Couldn't write 32 bytes for big.int" [])
  else check err.

(** [for b[0] == 0x00 { b = b[1:] }]: indexing the empty slice panics. *)
Fixpoint strip_zeros {S : Type} (b : list byte) : M S (list byte) :=
  match b with
  | [] => panic "runtime error: index out of range [0] with length 0"
  | x :: b' => if Byte.eqb x x00 then strip_zeros b' else ret b
  end.

Definition ReadBigInt256 : M io.Reader Z :=
  '(b, err) <- io.Read 32 ;;
  if negb (len b =? 32) then
    fail (Errorf "Couldn't read 32 bytes for big.int" [])
  else
    check err ;;
    b <- strip_zeros b ;;
    ret (big.SetBytes b).

(** [nullHash] as [init] leaves it: [chainhash.NewHashFromStr] of
    sixty-four zero digits is the hash of 32 zero bytes. *)
Definition nullHash : option chainhash.Hash := Some (repeat x00 32).

Definition WriteChainHash (i : option chainhash.Hash) : M io.Writer unit :=
  let i := match i with None => nullHash | Some _ => i end in
  match i with
  | None =>
      panic "runtime error: invalid memory address or nil pointer dereference"
  | Some h =>
      '(l, err) <- io.Write (chainhash.CloneBytes h) ;;
      if negb (l =? 32) then
        fail (Errorf "Couldn't write 32 bytes for chainhash" [])
      else check err
  end.

Definition ReadChainHash : M io.Reader (option chainhash.Hash) :=
  '(b, err) <- io.Read 32 ;;
  if negb (len b =? 32) then
    fail (Errorf "Couldn't read 32 bytes for chainhash" [])
  else
    check err ;;
    chainhash.NewHash b.

(** [for _, h := range list { WriteChainHash(w, h) }]: the error of each
    call is dropped. *)
Fixpoint WriteChainHashList_range (lst : list (option chainhash.Hash))
  : M io.Writer unit :=
  match lst with
  | [] => ret tt
  | h :: lst' =>
      discard (WriteChainHash h) ;;
      WriteChainHashList_range lst'
  end.

(** [uint64(len(list))] is written out as the wrap-around to 64 bits. *)
Definition WriteChainHashList (lst : list (option chainhash.Hash))
  : M io.Writer unit :=
  WriteVarInt (len lst mod 2 ^ 64) ;;
  WriteChainHashList_range lst.

(** [for i := uint64(0); i < count; i++ { x, err := body(r); if err != nil
    { return list, err }; list = append(list, x) }], with [n] the number
    of rounds still to run and [lst] the list so far. *)
Fixpoint read_list {A : Type} (body : M io.Reader A) (n : nat)
    (lst : list A) : M io.Reader (list A) :=
  match n with
  | O => ret lst
  | S n' =>
      x <- body ;;
      read_list body n' (lst ++ [x])
  end.

Definition ReadChainHashList : M io.Reader (list (option chainhash.Hash)) :=
  let lst := [] in
  count <- ReadVarInt ;;
  read_list ReadChainHash (Z.to_nat count) lst.

(** Modelled from the spec: the struct declarations of package [wire]
    are not in [readwrite.go]; this is [SegwitData] of the data model,
    a list of hash references and one hash reference. *)
Record SegwitData : Type := {
  TXIDMerkleLink : list (option chainhash.Hash);
  WTXIDMerkleRoot : option chainhash.Hash
}.

(** Modelled from the spec: the struct [ShareData] of the data model,
    which is not declared in [readwrite.go]: nonce uint32,
    pubKeyHashVersion uint8, subsidy uint64, donation uint16, staleInfo a
    signed 8-bit code, desiredVersion a VarInt (uint64); the coinbase
    string is kept as its bytes. *)
Record ShareData : Type := {
  PreviousShareHash : option chainhash.Hash;
  CoinBase : list byte;
  Nonce : Z;
  PubKeyHash : list byte;
  PubKeyHashVersion : Z;
  Subsidy : Z;
  Donation : Z;
  StaleInfo : Z;
  DesiredVersion : Z
}.

(** Modelled from the spec: the struct [TransactionHashRef] of the data
    model, not declared in [readwrite.go]: two VarInts. *)
Record TransactionHashRef : Type := {
  ShareCount : Z;
  TxCount : Z
}.

(** Modelled from the spec: the struct [HashLink] of the data model, not
    declared in [readwrite.go]: the state string, kept as its bytes, and
    a VarInt length. *)
Record HashLink : Type := {
  State : list byte;
  Length : Z
}.

(** Modelled from the spec: the struct [ShareInfo] of the data model, not
    declared in [readwrite.go]: maxBits, bits, timestamp and absHeight
    are uint32, absWork is a [*big.Int].  The fields [ShareData] and
    [SegwitData] carry a trailing underscore, their names being those of
    the record types. *)
Record ShareInfo : Type := {
  ShareData_ : ShareData;
  SegwitData_ : SegwitData;
  NewTransactionHashes : list (option chainhash.Hash);
  TransactionHashRefs : list TransactionHashRef;
  FarShareHash : option chainhash.Hash;
  MaxBits : Z;
  Bits : Z;
  Timestamp : Z;
  AbsHeight : Z;
  AbsWork : Z
}.

(** The zero value [SegwitData{}]. *)
Definition SegwitData_zero : SegwitData :=
  {| TXIDMerkleLink := []; WTXIDMerkleRoot := None |}.

(** The zero values [ShareData{}] and [ShareInfo{}], from which the
    decoders start filling in fields. *)
Definition ShareData_zero : ShareData :=
  {| PreviousShareHash := None; CoinBase := []; Nonce := 0;
     PubKeyHash := []; PubKeyHashVersion := 0; Subsidy := 0;
     Donation := 0; StaleInfo := 0; DesiredVersion := 0 |}.

Definition ShareInfo_zero : ShareInfo :=
  {| ShareData_ := ShareData_zero; SegwitData_ := SegwitData_zero;
     NewTransactionHashes := []; TransactionHashRefs := [];
     FarShareHash := None; MaxBits := 0; Bits := 0; Timestamp := 0;
     AbsHeight := 0; AbsWork := 0 |}.

Definition ReadSegwitData : M io.Reader SegwitData :=
  link <- ReadChainHashList ;;
  root <- ReadChainHash ;;
  ret {| TXIDMerkleLink := link; WTXIDMerkleRoot := root |}.

(** Lines 325-333 of [ReadShareData]: the 20 bytes of [sd.PubKeyHash]. *)
Definition ReadShareData_PubKeyHash : M io.Reader (list byte) :=
  '(b, err) <- io.Read 20 ;;
  check err ;;
  if len b <? 20 then
    fail (Errorf "Could not read pubkeyhash. Expected 20, got %d" [len b])
  else ret b.

Definition ReadShareData : M io.Reader ShareData :=
  previousShareHash <- ReadChainHash ;;
  coinBase <- ReadVarString ;;
  '(nonce, err) <- binary.Read uint32 0 ;;
  check err ;;
  pubKeyHash <- ReadShareData_PubKeyHash ;;
  '(pubKeyHashVersion, err) <- binary.Read uint8 0 ;;
  check err ;;
  '(subsidy, err) <- binary.Read uint64 0 ;;
  check err ;;
  '(donation, err) <- binary.Read uint16 0 ;;
  check err ;;
  '(staleInfo, err) <- binary.Read int8 0 ;;
  check err ;;
  desiredVersion <- ReadVarInt ;;
  ret {| PreviousShareHash := previousShareHash;
         CoinBase := coinBase;
         Nonce := nonce;
         PubKeyHash := pubKeyHash;
         PubKeyHashVersion := pubKeyHashVersion;
         Subsidy := subsidy;
         Donation := donation;
         StaleInfo := staleInfo;
         DesiredVersion := desiredVersion |}.

Definition ReadTransactionHashRef : M io.Reader TransactionHashRef :=
  shareCount <- ReadVarInt ;;
  txCount <- ReadVarInt ;;
  ret {| ShareCount := shareCount; TxCount := txCount |}.

Definition ReadTransactionHashRefList
  : M io.Reader (list TransactionHashRef) :=
  let lst := [] in
  count <- ReadVarInt ;;
  read_list ReadTransactionHashRef (Z.to_nat count) lst.

(** Lines 400-408 of [ReadHashLink]: the 32 bytes of [hl.State]. *)
Definition ReadHashLink_State : M io.Reader (list byte) :=
  '(stateBytes, err) <- io.Read 32 ;;
  check err ;;
  if negb (len stateBytes =? 32) then
    fail (Errorf "Hashlink state not 32 bytes" [])
  else ret stateBytes.

Definition ReadHashLink : M io.Reader HashLink :=
  state <- ReadHashLink_State ;;
  length <- ReadVarInt ;;
  ret {| State := state; Length := length |}.

(** Lines 463-471 of [ReadShareInfo]: the 16 bytes of [absWork]. *)
Definition ReadShareInfo_AbsWork : M io.Reader Z :=
  '(absWork, err) <- io.Read 16 ;;
  check err ;;
  if len absWork <? 16 then
    fail (Errorf "Could not read abswork 16 bytes, read %d in stead"
            [len absWork])
  else ret (big.SetBytes absWork).

Definition ReadShareInfo (segwit : bool) : M io.Reader ShareInfo :=
  shareData <- ReadShareData ;;
  segwitData <- (if segwit then ReadSegwitData else ret SegwitData_zero) ;;
  newTransactionHashes <- ReadChainHashList ;;
  transactionHashRefs <- ReadTransactionHashRefList ;;
  farShareHash <- ReadChainHash ;;
  '(maxBits, err) <- binary.Read uint32 0 ;;
  check err ;;
  '(bits, err) <- binary.Read uint32 0 ;;
  check err ;;
  '(timestamp, err) <- binary.Read uint32 0 ;;
  check err ;;
  '(absHeight, err) <- binary.Read uint32 0 ;;
  check err ;;
  absWork <- ReadShareInfo_AbsWork ;;
  ret {| ShareData_ := shareData;
         SegwitData_ := segwitData;
         NewTransactionHashes := newTransactionHashes;
         TransactionHashRefs := transactionHashRefs;
         FarShareHash := farShareHash;
         MaxBits := maxBits;
         Bits := bits;
         Timestamp := timestamp;
         AbsHeight := absHeight;
         AbsWork := absWork |}.

Definition WriteIPAddr (val : net.IP) : M io.Writer unit :=
  let b := repeat x00 16 in
  let b := copy b (net.To16 val) in
  '(i, err) <- io.Write b ;;
  if negb (i =? 16) then
    fail (Errorf "Unable to write IP address" [])
  else check err.

(** [uint64(len(val))] is written out as the wrap-around to 64 bits; the
    error of the write of the bytes is never looked at. *)
Definition WriteVarString (val : list byte) : M io.Writer unit :=
  WriteVarInt (len val mod 2 ^ 64) ;;
  '(num, _) <- io.Write val ;;
  if negb (num =? len val) then
    fail (Errorf "Not all bytes could be written" [])
  else ret tt.

Module Header.

(** Modelled from the spec: the struct [SmallBlockHeader] of the data
    model, not declared in [readwrite.go]: version int32, previousBlock a
    hash reference, timestamp, bits and nonce uint32. *)
Record SmallBlockHeader : Type := {
  Version : Z;
  PreviousBlock : option chainhash.Hash;
  Timestamp : Z;
  Bits : Z;
  Nonce : Z
}.

End Header.

Definition ReadSmallBlockHeader : M io.Reader Header.SmallBlockHeader :=
  '(version, err) <- binary.Read_int32 0 ;;
  check err ;;
  previousBlock <- ReadChainHash ;;
  '(timestamp, err) <- binary.Read uint32 0 ;;
  check err ;;
  '(bits, err) <- binary.Read uint32 0 ;;
  check err ;;
  '(nonce, err) <- binary.Read uint32 0 ;;
  check err ;;
  ret {| Header.Version := version;
         Header.PreviousBlock := previousBlock;
         Header.Timestamp := timestamp;
         Header.Bits := bits;
         Header.Nonce := nonce |}.

Definition WriteSmallBlockHeader (sbh : Header.SmallBlockHeader)
  : M io.Writer unit :=
  err <- binary.Write_int32 (Header.Version sbh) ;;
  check err ;;
  WriteChainHash (Header.PreviousBlock sbh) ;;
  err <- binary.Write uint32 (Header.Timestamp sbh) ;;
  check err ;;
  err <- binary.Write uint32 (Header.Bits sbh) ;;
  check err ;;
  err <- binary.Write uint32 (Header.Nonce sbh) ;;
  check err.

End wire.

Import wire.


(** ** The error kinds of the specification *)

(** The free-text errors of [readwrite.go] sorted into the error kinds the
    specification names.  This follows the specification's words, not the
    source: [io.EOF], [io.ErrUnexpectedEOF] and the messages of the
    short-read checks are [TruncatedInput]; the three "not canonically
    packed" messages are [NonCanonicalEncoding]; the messages of the
    short-write checks are [ShortWrite]; the error of [chainhash.NewHash]
    is [MalformedDigest]. *)
Inductive ErrorKind : Type :=
| TruncatedInput
| ShortWrite
| NonCanonicalEncoding
| MalformedDigest
| IOError.

Definition mem_string (x : string) (l : list string) : bool :=
  existsb (String.eqb x) l.

Definition spec_error_kind (e : error) : ErrorKind :=
  match e with
  | EOF | ErrUnexpectedEOF => TruncatedInput
  | Errorf format _ =>
      if String.prefix "Varint not canonically packed" format
      then NonCanonicalEncoding
      else if mem_string format
                ["Could not read all string bytes";
                 "Unable to read IP address";
                 "Couldn't read 32 bytes for big.int";
                 "Couldn't read 32 bytes for chainhash";
                 "Could not read pubkeyhash. Expected 20, got %d";
                 "Hashlink state not 32 bytes";
                 "Could not read abswork 16 bytes, read %d in stead"]%string
      then TruncatedInput
      else if mem_string format
                ["Unable to write IP address";
                 "Not all bytes could be written";
                 "Couldn't write 32 bytes for big.int";
                 "Couldn't write 32 bytes for chainhash"]%string
      then ShortWrite
      else if String.prefix "invalid hash length" format
      then MalformedDigest
      else IOError
  end.

(** The three errors of the canonical check of [ReadVarInt]. *)
Definition noncanonical (width : string) : error :=
  Errorf ("Varint not canonically packed -- " ++ width) [].

(** A VarInt encoding that is wider than its value needs, in the words of
    the specification: discriminant [d] and payload bytes [p]. *)
Definition non_minimal (d : byte) (p : list byte) : bool :=
  match d with
  | xfd => (List.length p =? 2)%nat && (binary.Uint p <? 0xfd)
  | xfe => (List.length p =? 4)%nat && (binary.Uint p <? 0x10000)
  | xff => (List.length p =? 8)%nat && (binary.Uint p <? 0x100000000)
  | _ => false
  end.

(** The big-endian representation of [x] on exactly [n] bytes, in the
    words of the specification: the byte at index [i] holds the bits
    [8*(n-1-i) .. 8*(n-1-i)+7] of [x]; a small value is zero-padded on the
    left. *)
Definition big_endian (n : nat) (x : Z) : list byte :=
  map (fun k => byte_of_Z (Z.shiftr x (8 * Z.of_nat k))) (rev (seq 0 n)).

(** The bytes that [WriteVarInt] hands to the sink for a [uint64] value,
    read off its four branches: the discriminant, when there is one, and
    the little-endian payload. *)
Definition VarInt_bytes (v : Z) : list byte :=
  if v <? 0xfd then binary.PutUint 1 v
  else if v <=? 0xffff then xfd :: binary.PutUint 2 v
  else if v <=? 0xffffffff then xfe :: binary.PutUint 4 v
  else xff :: binary.PutUint 8 v.

(** The bytes that [WriteChainHash] hands to the sink: those of the hash,
    or those of [nullHash] for a nil reference. *)
Definition hash_bytes (i : option chainhash.Hash) : list byte :=
  match i with
  | Some h => h
  | None => repeat x00 32
  end.

(** ** The wire layout of a ShareInfo, in the words of the specification *)

(** [r] starts with [n] bytes whose little-endian value is [v], and [r']
    is what follows them. *)
Definition le_field (n : nat) (v : Z) (r r' : io.Reader) : Prop :=
  exists b : list byte,
    List.length b = n /\ r = b ++ r' /\ v = binary.Uint b.

(** [r] starts with [n] bytes whose big-endian value is [v], and [r'] is
    what follows them. *)
Definition be_field (n : nat) (v : Z) (r r' : io.Reader) : Prop :=
  exists b : list byte,
    List.length b = n /\ r = b ++ r' /\ v = big.SetBytes b.

(** Field number [j] of a ShareInfo, counted from 0 in wire order, decodes
    from [r] to the value that [si] holds for it and leaves [r'].  Field 1
    is the SegwitData: with the flag off it takes no byte and the record
    keeps its zero value. *)
Definition field_decoded (j : nat) (segwit : bool) (r : io.Reader)
    (si : ShareInfo) (r' : io.Reader) : Prop :=
  match j with
  | 0 => ReadShareData r = (Ok (ShareData_ si), r')
  | 1 => if segwit then ReadSegwitData r = (Ok (SegwitData_ si), r')
         else SegwitData_ si = SegwitData_zero /\ r' = r
  | 2 => ReadChainHashList r = (Ok (NewTransactionHashes si), r')
  | 3 => ReadTransactionHashRefList r = (Ok (TransactionHashRefs si), r')
  | 4 => ReadChainHash r = (Ok (FarShareHash si), r')
  | 5 => le_field 4 (MaxBits si) r r'
  | 6 => le_field 4 (Bits si) r r'
  | 7 => le_field 4 (Timestamp si) r r'
  | 8 => le_field 4 (AbsHeight si) r r'
  | 9 => be_field 16 (AbsWork si) r r'
  | _ => False
  end%nat.

(** Field number [j] fails on [r] with the error [e], leaving [r']. *)
Definition field_fails (j : nat) (segwit : bool) (r : io.Reader)
    (e : error) (r' : io.Reader) : Prop :=
  match j with
  | 0 => ReadShareData r = (Err e, r')
  | 1 => segwit = true /\ ReadSegwitData r = (Err e, r')
  | 2 => ReadChainHashList r = (Err e, r')
  | 3 => ReadTransactionHashRefList r = (Err e, r')
  | 4 => ReadChainHash r = (Err e, r')
  | 5 | 6 | 7 | 8 =>
      exists v : Z, binary.Read binary.uint32 0 r = (Ok (v, Some e), r')
  | 9 => ReadShareInfo_AbsWork r = (Err e, r')
  | _ => False
  end%nat.

(** The fields 0 .. k-1 decode one after the other, from [r], to the
    values that [si] holds for them, and leave [rk]. *)
Fixpoint decoded_upto (k : nat) (segwit : bool) (r : io.Reader)
    (si : ShareInfo) (rk : io.Reader) : Prop :=
  match k with
  | O => rk = r
  | S k' =>
      exists rj : io.Reader,
        decoded_upto k' segwit r si rj /\ field_decoded k' segwit rj si rk
  end.

(** ** A sample share *)

(** The bytes of a ShareData: previous share hash, coinbase "abcd",
    nonce 42, a zero pubKeyHash, version 0, subsidy 5000000000, donation 0,
    stale info 0, desired version 17. *)
Definition sample_ShareData_bytes : list byte :=
  repeat x11 32 ++ [x04; x61; x62; x63; x64] ++ binary.PutUint 4 42 ++
  repeat x00 20 ++ [x00] ++ binary.PutUint 8 5000000000 ++
  binary.PutUint 2 0 ++ [x00] ++ [x11].

(** The bytes of a SegwitData: an empty merkle link and a root. *)
Definition sample_SegwitData_bytes : list byte :=
  [x00] ++ repeat x44 32.

(** The bytes of the other fields of a ShareInfo: one new transaction
    hash, one reference (2, 3), the far share hash, maxBits 7, bits 8,
    timestamp 9, absHeight 10, absWork 5. *)
Definition sample_tail_bytes : list byte :=
  ([x01] ++ repeat x22 32) ++ [x01; x02; x03] ++ repeat x33 32 ++
  binary.PutUint 4 7 ++ binary.PutUint 4 8 ++ binary.PutUint 4 9 ++
  binary.PutUint 4 10 ++ repeat x00 15 ++ [x05].

Definition sample_ShareData : wire.ShareData :=
  {| wire.PreviousShareHash := Some (repeat x11 32);
     wire.CoinBase := [x61; x62; x63; x64];
     wire.Nonce := 42;
     wire.PubKeyHash := repeat x00 20;
     wire.PubKeyHashVersion := 0;
     wire.Subsidy := 5000000000;
     wire.Donation := 0;
     wire.StaleInfo := 0;
     wire.DesiredVersion := 17 |}.

Definition sample_ShareInfo (sg : wire.SegwitData) : wire.ShareInfo :=
  {| wire.ShareData_ := sample_ShareData;
     wire.SegwitData_ := sg;
     wire.NewTransactionHashes := [Some (repeat x22 32)];
     wire.TransactionHashRefs :=
       [{| wire.ShareCount := 2; wire.TxCount := 3 |}];
     wire.FarShareHash := Some (repeat x33 32);
     wire.MaxBits := 7;
     wire.Bits := 8;
     wire.Timestamp := 9;
     wire.AbsHeight := 10;
     wire.AbsWork := 5 |}.

(** ** Wire layouts and conditions used by the further properties *)

(** A hash reference as [WriteChainHash] can receive it: nil, or a hash
    of 32 bytes. *)
Definition hash_ref_ok (i : option chainhash.Hash) : Prop :=
  match i with
  | Some h => List.length h = 32%nat
  | None => True
  end.

(** The two counts of a reference are uint64 values. *)
Definition TransactionHashRef_ok (t : TransactionHashRef) : Prop :=
  0 <= ShareCount t <= 2 ^ 64 - 1 /\ 0 <= TxCount t <= 2 ^ 64 - 1.

(** The wire layout of a reference: what [WriteVarInt] writes for the
    share count, then for the transaction count. *)
Definition TransactionHashRef_bytes (t : TransactionHashRef) : list byte :=
  VarInt_bytes (ShareCount t) ++ VarInt_bytes (TxCount t).

(** The fields of a ShareData are in the range of their types, and the
    coinbase is short enough to be allocated. *)
Definition ShareData_ok (sd : ShareData) : Prop :=
  hash_ref_ok (PreviousShareHash sd) /\
  len (CoinBase sd) <= maxAlloc /\
  0 <= Nonce sd < 2 ^ 32 /\
  List.length (PubKeyHash sd) = 20%nat /\
  0 <= PubKeyHashVersion sd < 2 ^ 8 /\
  0 <= Subsidy sd < 2 ^ 64 /\
  0 <= Donation sd < 2 ^ 16 /\
  - 2 ^ 7 <= StaleInfo sd < 2 ^ 7 /\
  0 <= DesiredVersion sd <= 2 ^ 64 - 1.

(** The wire layout of a ShareData, field by field in the order in which
    [ReadShareData] reads them; [readwrite.go] has no writer for it. *)
Definition ShareData_bytes (sd : ShareData) : list byte :=
  hash_bytes (PreviousShareHash sd) ++
  VarInt_bytes (len (CoinBase sd)) ++ CoinBase sd ++
  binary.PutUint 4 (Nonce sd) ++
  PubKeyHash sd ++
  binary.PutUint 1 (PubKeyHashVersion sd) ++
  binary.PutUint 8 (Subsidy sd) ++
  binary.PutUint 2 (Donation sd) ++
  binary.PutUint 1 (StaleInfo sd) ++
  VarInt_bytes (DesiredVersion sd).

(** The fields of a small block header are in the range of their types. *)
Definition Header_ok (sbh : Header.SmallBlockHeader) : Prop :=
  - 2 ^ 31 <= Header.Version sbh < 2 ^ 31 /\
  hash_ref_ok (Header.PreviousBlock sbh) /\
  0 <= Header.Timestamp sbh < 2 ^ 32 /\
  0 <= Header.Bits sbh < 2 ^ 32 /\
  0 <= Header.Nonce sbh < 2 ^ 32.

(** The bytes that [WriteSmallBlockHeader] hands to the sink, read off
    its five writes. *)
Definition Header_bytes (sbh : Header.SmallBlockHeader) : list byte :=
  binary.PutUint 4 (Header.Version sbh) ++
  hash_bytes (Header.PreviousBlock sbh) ++
  binary.PutUint 4 (Header.Timestamp sbh) ++
  binary.PutUint 4 (Header.Bits sbh) ++
  binary.PutUint 4 (Header.Nonce sbh).

(** No outcome of [m] is a panic. *)
Definition never_panics {A : Type} (m : M io.Reader A) : Prop :=
  forall (r r' : io.Reader) (msg : string), m r <> (Panic msg, r').

(** The message of the panic of [make] in [ReadVarString]. *)
Definition makeslice_panic : string :=
  "runtime error: makeslice: len out of range".

(** ** The wire layout of a ShareInfo, byte by byte *)

(** A hash reference as a decoder returns it: not nil, 32 bytes. *)
Definition hash_present (i : option chainhash.Hash) : Prop :=
  exists h : chainhash.Hash, i = Some h /\ List.length h = 32%nat.

(** The wire layout of a list of hashes: the VarInt of the count, then the
    32 bytes of each hash, in order. *)
Definition ChainHashList_bytes (l : list (option chainhash.Hash))
  : list byte :=
  VarInt_bytes (len l) ++ List.concat (map hash_bytes l).

Definition ChainHashList_wf (l : list (option chainhash.Hash)) : Prop :=
  len l <= 2 ^ 64 - 1 /\ Forall hash_present l.

(** The wire layout of a list of references: the VarInt of the count,
    then the two VarInts of each reference, in order. *)
Definition TransactionHashRefList_bytes (l : list TransactionHashRef)
  : list byte :=
  VarInt_bytes (len l) ++ List.concat (map TransactionHashRef_bytes l).

Definition TransactionHashRefList_wf (l : list TransactionHashRef) : Prop :=
  len l <= 2 ^ 64 - 1 /\ Forall TransactionHashRef_ok l.

(** The wire layout of a SegwitData: the list of the merkle link, then the
    32 bytes of the root. *)
Definition SegwitData_bytes (sg : SegwitData) : list byte :=
  ChainHashList_bytes (TXIDMerkleLink sg) ++ hash_bytes (WTXIDMerkleRoot sg).

Definition SegwitData_wf (sg : SegwitData) : Prop :=
  ChainHashList_wf (TXIDMerkleLink sg) /\ hash_present (WTXIDMerkleRoot sg).

(** A ShareData as [ReadShareData] returns it: the fields in the range of
    their types and the previous share hash not nil. *)
Definition ShareData_wf (sd : ShareData) : Prop :=
  ShareData_ok sd /\ hash_present (PreviousShareHash sd).

(** The bytes of field number [j] of a ShareInfo on the wire, for the
    values that [si] holds.  Field 1, the SegwitData, has bytes only with
    the flag on. *)
Definition field_bytes (j : nat) (segwit : bool) (si : ShareInfo)
  : list byte :=
  match j with
  | 0%nat => ShareData_bytes (ShareData_ si)
  | 1%nat => if segwit then SegwitData_bytes (SegwitData_ si) else []
  | 2%nat => ChainHashList_bytes (NewTransactionHashes si)
  | 3%nat => TransactionHashRefList_bytes (TransactionHashRefs si)
  | 4%nat => hash_bytes (FarShareHash si)
  | 5%nat => binary.PutUint 4 (MaxBits si)
  | 6%nat => binary.PutUint 4 (Bits si)
  | 7%nat => binary.PutUint 4 (Timestamp si)
  | 8%nat => binary.PutUint 4 (AbsHeight si)
  | 9%nat => big_endian 16 (AbsWork si)
  | _ => []
  end.

(** The value that [si] holds for field number [j] is one that a decode
    can return: in the range of its type, hashes not nil; with the flag
    off the SegwitData is the zero value. *)
Definition field_wf (j : nat) (segwit : bool) (si : ShareInfo) : Prop :=
  match j with
  | 0%nat => ShareData_wf (ShareData_ si)
  | 1%nat => if segwit then SegwitData_wf (SegwitData_ si)
         else SegwitData_ si = SegwitData_zero
  | 2%nat => ChainHashList_wf (NewTransactionHashes si)
  | 3%nat => TransactionHashRefList_wf (TransactionHashRefs si)
  | 4%nat => hash_present (FarShareHash si)
  | 5%nat => 0 <= MaxBits si < 2 ^ 32
  | 6%nat => 0 <= Bits si < 2 ^ 32
  | 7%nat => 0 <= Timestamp si < 2 ^ 32
  | 8%nat => 0 <= AbsHeight si < 2 ^ 32
  | 9%nat => 0 <= AbsWork si < 2 ^ 128
  | _ => False
  end.

(** The bytes of the fields 0 .. k-1, one after the other. *)
Fixpoint prefix_bytes (k : nat) (segwit : bool) (si : ShareInfo)
  : list byte :=
  match k with
  | O => []
  | S k' => prefix_bytes k' segwit si ++ field_bytes k' segwit si
  end.

Fixpoint prefix_wf (k : nat) (segwit : bool) (si : ShareInfo) : Prop :=
  match k with
  | O => True
  | S k' => prefix_wf k' segwit si /\ field_wf k' segwit si
  end.

(** The wire layout of a whole ShareInfo: its ten fields in order. *)
Definition ShareInfo_bytes (segwit : bool) (si : ShareInfo) : list byte :=
  prefix_bytes 10 segwit si.

Definition ShareInfo_wf (segwit : bool) (si : ShareInfo) : Prop :=
  prefix_wf 10 segwit si.

(** * Properties *)

(** ** Bytes and their integer values *)

Lemma Z_of_byte_range (b : byte) : 0 <= Z_of_byte b < 256.
Proof.
  unfold Z_of_byte.
  pose proof (Byte.to_N_bounded b) as Hb.
  lia.
Qed.

Lemma Z_of_byte_of_Z (z : Z) : Z_of_byte (byte_of_Z z) = z mod 256.
Proof.
  unfold Z_of_byte, byte_of_Z.
  pose proof (Z.mod_pos_bound z 256 ltac:(lia)) as Hm.
  destruct (Byte.of_N (Z.to_N (z mod 256))) as [b|] eqn:E.
  - apply Byte.to_of_N in E. rewrite E. lia.
  - apply Byte.of_N_None_iff in E. lia.
Qed.

Lemma byte_of_Z_of_byte (b : byte) : byte_of_Z (Z_of_byte b) = b.
Proof.
  unfold byte_of_Z, Z_of_byte.
  pose proof (Byte.to_N_bounded b) as Hb.
  rewrite Z.mod_small by lia.
  rewrite N2Z.id, Byte.of_to_N. reflexivity.
Qed.

Lemma len_app {A : Type} (l1 l2 : list A) : len (l1 ++ l2) = len l1 + len l2.
Proof. unfold len. rewrite length_app. lia. Qed.

Lemma len_nonneg {A : Type} (l : list A) : 0 <= len l.
Proof. unfold len. lia. Qed.

(** ** Little-endian fields *)

Lemma lor_byte_shiftl (b u : Z) :
  0 <= b < 256 -> Z.lor b (Z.shiftl u 8) = b + 256 * u.
Proof.
  intros Hb.
  assert (Z.land b (Z.shiftl u 8) = 0) as Hland.
  { apply Z.bits_inj'. intros n Hn.
    rewrite Z.land_spec, Z.bits_0.
    destruct (Z.ltb_spec n 8) as [Hlt|Hge].
    - rewrite Z.shiftl_spec_low by lia. apply andb_false_r.
    - replace (Z.testbit b n) with false; [reflexivity|].
      symmetry.
      destruct (Z.eq_dec b 0) as [->|Hnz]; [apply Z.bits_0|].
      apply Z.bits_above_log2; [lia|].
      assert (Z.log2 b < 8) by (apply Z.log2_lt_pow2; lia).
      lia. }
  pose proof (Z.add_lor_land b (Z.shiftl u 8)) as Hadd.
  rewrite Hland in Hadd.
  rewrite Z.shiftl_mul_pow2 in * by lia.
  change (2 ^ 8) with 256 in *. lia.
Qed.

Lemma Uint_cons (b : byte) (bs : list byte) :
  binary.Uint (b :: bs) = Z_of_byte b + 256 * binary.Uint bs.
Proof.
  cbn [binary.Uint]. apply lor_byte_shiftl, Z_of_byte_range.
Qed.

Lemma Uint_range (bs : list byte) :
  0 <= binary.Uint bs < 2 ^ (8 * len bs).
Proof.
  induction bs as [|b bs IH].
  - cbn. lia.
  - rewrite Uint_cons.
    pose proof (Z_of_byte_range b) as Hb.
    pose proof (len_nonneg bs) as Hl.
    replace (len (b :: bs)) with (len bs + 1)
      by (unfold len; cbn [List.length]; lia).
    replace (8 * (len bs + 1)) with (8 + 8 * len bs) by lia.
    rewrite Z.pow_add_r by lia. change (2 ^ 8) with 256. nia.
Qed.

Lemma PutUint_length (n : nat) (v : Z) : List.length (binary.PutUint n v) = n.
Proof.
  revert v. induction n as [|n IH]; intros v; cbn; [reflexivity|].
  now rewrite IH.
Qed.

Lemma Uint_PutUint (n : nat) (v : Z) :
  binary.Uint (binary.PutUint n v) = v mod 2 ^ (8 * Z.of_nat n).
Proof.
  revert v. induction n as [|n IH]; intros v.
  - cbn. now rewrite Z.mod_1_r.
  - cbn [binary.PutUint]. rewrite Uint_cons, IH, Z_of_byte_of_Z.
    rewrite Z.shiftr_div_pow2 by lia. change (2 ^ 8) with 256.
    replace (8 * Z.of_nat (S n)) with (8 + 8 * Z.of_nat n) by lia.
    rewrite Z.pow_add_r by lia. change (2 ^ 8) with 256.
    rewrite (Z.rem_mul_r v 256 (2 ^ (8 * Z.of_nat n))) by lia.
    reflexivity.
Qed.

Lemma Uint_PutUint_small (n : nat) (v : Z) :
  0 <= v < 2 ^ (8 * Z.of_nat n) ->
  binary.Uint (binary.PutUint n v) = v.
Proof.
  intros Hv. rewrite Uint_PutUint. now apply Z.mod_small.
Qed.

(** ** The in-memory reader *)

Lemma firstn_skipn_len_app {A : Type} (p rest : list A) (n : Z) :
  len p = n ->
  firstn (Z.to_nat n) (p ++ rest) = p /\ skipn (Z.to_nat n) (p ++ rest) = rest.
Proof.
  unfold len. intros <-. rewrite Nat2Z.id. split.
  - rewrite firstn_app, Nat.sub_diag, firstn_all. cbn. apply app_nil_r.
  - rewrite skipn_app, Nat.sub_diag, skipn_all. reflexivity.
Qed.

Lemma ReadFull_app (n : Z) (p rest : list byte) :
  len p = n ->
  io.ReadFull n (p ++ rest) = (Ok (p, None), rest).
Proof.
  intros Hp. unfold io.ReadFull.
  pose proof (len_nonneg p) as Hp0. pose proof (len_nonneg rest) as Hr0.
  destruct (Z.leb_spec n 0) as [H0|H0].
  - assert (p = []) as -> by (destruct p; [reflexivity|unfold len in *; cbn in *; lia]).
    reflexivity.
  - rewrite len_app.
    destruct (Z.leb_spec n (len p + len rest)) as [_|H1]; [|lia].
    destruct (firstn_skipn_len_app p rest n Hp) as [-> ->]. reflexivity.
Qed.

Lemma ReadFull_short (n : Z) (r : list byte) :
  len r < n ->
  io.ReadFull n r =
    (Ok (r, Some (match r with [] => EOF | _ :: _ => ErrUnexpectedEOF end)), []).
Proof.
  intros Hr. unfold io.ReadFull.
  pose proof (len_nonneg r) as Hr0.
  destruct (Z.leb_spec n 0) as [H0|H0]; [lia|].
  destruct (Z.leb_spec n (len r)) as [H1|H1]; [lia|].
  destruct r; reflexivity.
Qed.

Lemma Read_app (n : Z) (p rest : list byte) :
  0 < n -> len p = n ->
  io.Read n (p ++ rest) = (Ok (p, None), rest).
Proof.
  intros Hn Hp. unfold io.Read.
  pose proof (len_nonneg rest) as Hr0.
  destruct (p ++ rest) as [|x l] eqn:E.
  - destruct p; [unfold len in *; cbn in *; lia|discriminate].
  - rewrite <- E, len_app.
    replace (Z.min n (len p + len rest)) with n by lia.
    destruct (firstn_skipn_len_app p rest n Hp) as [-> ->]. reflexivity.
Qed.

Lemma Read_short (n : Z) (r : list byte) :
  len r < n -> r <> [] ->
  io.Read n r = (Ok (r, None), []).
Proof.
  intros Hr Hne. unfold io.Read.
  destruct r as [|x l]; [congruence|].
  replace (Z.min n (len (x :: l))) with (len (x :: l)) by lia.
  unfold len. rewrite Nat2Z.id, firstn_all, skipn_all. reflexivity.
Qed.

Lemma binary_Read_app (t : binary.kind) (old : Z) (p rest : list byte) :
  List.length p = binary.size t ->
  binary.Read t old (p ++ rest) = (Ok (binary.decode t p, None), rest).
Proof.
  intros Hp. unfold binary.Read, bind.
  rewrite ReadFull_app by (unfold len; now rewrite Hp).
  reflexivity.
Qed.

Lemma binary_Read_short (t : binary.kind) (old : Z) (r : list byte) :
  (List.length r < binary.size t)%nat ->
  binary.Read t old r =
    (Ok (old, Some (match r with [] => EOF | _ :: _ => ErrUnexpectedEOF end)),
     []).
Proof.
  intros Hr. unfold binary.Read, bind.
  rewrite ReadFull_short by (unfold len; lia).
  reflexivity.
Qed.

Lemma binary_Write_run (t : binary.kind) (x : Z) (w : io.Writer) :
  binary.Write t x w = (Ok None, w ++ binary.PutUint (binary.size t) x).
Proof. reflexivity. Qed.

(** ** VarInt *)

Lemma decode_uint8_single (b : byte) : binary.decode binary.uint8 [b] = Z_of_byte b.
Proof.
  cbn [binary.decode]. rewrite Uint_cons. cbn [binary.Uint]. lia.
Qed.

Lemma ReadVarInt_inline (b : byte) (rest : list byte) :
  Z_of_byte b < 0xfd ->
  ReadVarInt (b :: rest) = (Ok (Z_of_byte b), rest).
Proof.
  intros Hb. unfold ReadVarInt, bind.
  change (b :: rest) with ([b] ++ rest).
  rewrite binary_Read_app by reflexivity.
  rewrite decode_uint8_single. cbn [check ret].
  destruct (Z.eqb_spec (Z_of_byte b) 0xff); [lia|].
  destruct (Z.eqb_spec (Z_of_byte b) 0xfe); [lia|].
  destruct (Z.eqb_spec (Z_of_byte b) 0xfd); [lia|].
  reflexivity.
Qed.

Lemma ReadVarInt_fd (p rest : list byte) :
  List.length p = 2%nat ->
  ReadVarInt (xfd :: p ++ rest) =
    if binary.Uint p <? 0xfd then (Err (noncanonical "uint16"), rest)
    else (Ok (binary.Uint p), rest).
Proof.
  intros Hp. unfold ReadVarInt, bind.
  change (xfd :: p ++ rest) with ([xfd] ++ (p ++ rest)).
  rewrite binary_Read_app by reflexivity.
  rewrite decode_uint8_single.
  change (Z_of_byte xfd) with 0xfd. cbn [check ret Z.eqb Pos.eqb].
  rewrite binary_Read_app by exact Hp.
  cbn [binary.decode].
  destruct (binary.Uint p <? 0xfd); reflexivity.
Qed.

Lemma ReadVarInt_fe (p rest : list byte) :
  List.length p = 4%nat ->
  ReadVarInt (xfe :: p ++ rest) =
    if binary.Uint p <? 0x10000 then (Err (noncanonical "uint32"), rest)
    else (Ok (binary.Uint p), rest).
Proof.
  intros Hp. unfold ReadVarInt, bind.
  change (xfe :: p ++ rest) with ([xfe] ++ (p ++ rest)).
  rewrite binary_Read_app by reflexivity.
  rewrite decode_uint8_single.
  change (Z_of_byte xfe) with 0xfe. cbn [check ret Z.eqb Pos.eqb].
  rewrite binary_Read_app by exact Hp.
  cbn [binary.decode].
  destruct (binary.Uint p <? 0x10000); reflexivity.
Qed.

Lemma ReadVarInt_ff (p rest : list byte) :
  List.length p = 8%nat ->
  ReadVarInt (xff :: p ++ rest) =
    if binary.Uint p <? 0x100000000 then (Err (noncanonical "uint64"), rest)
    else (Ok (binary.Uint p), rest).
Proof.
  intros Hp. unfold ReadVarInt, bind.
  change (xff :: p ++ rest) with ([xff] ++ (p ++ rest)).
  rewrite binary_Read_app by reflexivity.
  rewrite decode_uint8_single.
  change (Z_of_byte xff) with 0xff. cbn [check ret Z.eqb Pos.eqb].
  rewrite binary_Read_app by exact Hp.
  cbn [binary.decode].
  destruct (binary.Uint p <? 0x100000000); reflexivity.
Qed.

Lemma WriteVarInt_run (v : Z) (w : io.Writer) :
  WriteVarInt v w = (Ok tt, w ++ VarInt_bytes v).
Proof.
  unfold WriteVarInt, VarInt_bytes, MaxUint16, MaxUint32, bind.
  destruct (v <? 0xfd); [reflexivity|].
  destruct (v <=? 0xffff).
  { rewrite !binary_Write_run. cbn [check ret]. rewrite binary_Write_run.
    cbn [check ret]. now rewrite <- app_assoc. }
  destruct (v <=? 0xffffffff).
  { rewrite !binary_Write_run. cbn [check ret]. rewrite binary_Write_run.
    cbn [check ret]. now rewrite <- app_assoc. }
  rewrite !binary_Write_run. cbn [check ret]. rewrite binary_Write_run.
  cbn [check ret]. now rewrite <- app_assoc.
Qed.

Lemma ReadVarInt_VarInt_bytes (v : Z) (rest : list byte) :
  0 <= v <= 2 ^ 64 - 1 ->
  ReadVarInt (VarInt_bytes v ++ rest) = (Ok v, rest).
Proof.
  intros Hv. unfold VarInt_bytes.
  destruct (Z.ltb_spec v 0xfd) as [H1|H1].
  { cbn [binary.PutUint app].
    rewrite <- (Z.mod_small v 256) at 2 by lia.
    rewrite <- Z_of_byte_of_Z. apply ReadVarInt_inline.
    rewrite Z_of_byte_of_Z, Z.mod_small; lia. }
  destruct (Z.leb_spec v 0xffff) as [H2|H2].
  { cbn [app]. rewrite ReadVarInt_fd by apply PutUint_length.
    rewrite Uint_PutUint_small by (cbn; lia).
    destruct (Z.ltb_spec v 0xfd); [lia|reflexivity]. }
  destruct (Z.leb_spec v 0xffffffff) as [H3|H3].
  { cbn [app]. rewrite ReadVarInt_fe by apply PutUint_length.
    rewrite Uint_PutUint_small by (cbn; lia).
    destruct (Z.ltb_spec v 0x10000); [lia|reflexivity]. }
  cbn [app]. rewrite ReadVarInt_ff by apply PutUint_length.
  rewrite Uint_PutUint_small by (cbn; lia).
  destruct (Z.ltb_spec v 0x100000000); [lia|reflexivity].
Qed.

Lemma VarInt_bytes_length (v : Z) :
  List.length (VarInt_bytes v) =
    if v <? 0xfd then 1%nat
    else if v <=? 0xffff then 3%nat
    else if v <=? 0xffffffff then 5%nat
    else 9%nat.
Proof.
  unfold VarInt_bytes.
  destruct (v <? 0xfd); [reflexivity|].
  destruct (v <=? 0xffff); [cbn [List.length]; now rewrite PutUint_length|].
  destruct (v <=? 0xffffffff); cbn [List.length]; now rewrite PutUint_length.
Qed.

(** C1. For every value [v] of the VarInt domain, 0 <= v <= 2^64-1, the
    bytes that [WriteVarInt] appends to the sink decode with [ReadVarInt]
    to [v] again, whatever follows them on the stream, and they are the
    minimal tier: 1 byte when v < 0xfd, 3 bytes when 0xfd <= v <= 0xffff,
    5 bytes when 0x10000 <= v <= 0xffffffff, 9 bytes otherwise. *)
Theorem VarInt_round_trip (v : Z) (w : io.Writer) (rest : list byte) :
  0 <= v <= 2 ^ 64 - 1 ->
  exists enc : list byte,
    WriteVarInt v w = (Ok tt, w ++ enc) /\
    ReadVarInt (enc ++ rest) = (Ok v, rest) /\
    (v < 0xfd -> List.length enc = 1%nat) /\
    (0xfd <= v <= 0xffff -> List.length enc = 3%nat) /\
    (0x10000 <= v <= 0xffffffff -> List.length enc = 5%nat) /\
    (0xffffffff < v -> List.length enc = 9%nat).
Proof.
  intros Hv. exists (VarInt_bytes v).
  split; [apply WriteVarInt_run|].
  split; [now apply ReadVarInt_VarInt_bytes|].
  rewrite VarInt_bytes_length.
  destruct (Z.ltb_spec v 0xfd); [repeat split; intros; lia|].
  destruct (Z.leb_spec v 0xffff); [repeat split; intros; lia|].
  destruct (Z.leb_spec v 0xffffffff); repeat split; intros; lia.
Qed.

Lemma VarInt_round_trip_witness :
  0 <= 70000 <= 2 ^ 64 - 1 /\
  exists enc : list byte,
    WriteVarInt 70000 [x2a] = (Ok tt, [x2a] ++ enc) /\
    ReadVarInt (enc ++ [x07]) = (Ok 70000, [x07]) /\
    (70000 < 0xfd -> List.length enc = 1%nat) /\
    (0xfd <= 70000 <= 0xffff -> List.length enc = 3%nat) /\
    (0x10000 <= 70000 <= 0xffffffff -> List.length enc = 5%nat) /\
    (0xffffffff < 70000 -> List.length enc = 9%nat).
Proof.
  assert (0 <= 70000 <= 2 ^ 64 - 1) as H by lia.
  split; [exact H|].
  exact (VarInt_round_trip 70000 [x2a] [x07] H).
Defined.

(** C2. Every non-minimal VarInt encoding (discriminant 0xfd with a u16
    payload below 0xfd, 0xfe with a u32 payload below 0x10000, 0xff with a
    u64 payload below 0x100000000) makes [ReadVarInt] return an error of
    the kind NonCanonicalEncoding, not a value; the payload has been
    consumed. *)
Theorem ReadVarInt_rejects_non_minimal (d : byte) (p rest : list byte) :
  non_minimal d p = true ->
  exists e : error,
    ReadVarInt (d :: p ++ rest) = (Err e, rest) /\
    spec_error_kind e = NonCanonicalEncoding.
Proof.
  intros H.
  destruct d; try discriminate H; cbn [non_minimal] in H;
    apply andb_prop in H; destruct H as [Hl Hv];
    apply Nat.eqb_eq in Hl.
  - exists (noncanonical "uint16"). split; [|reflexivity].
    rewrite ReadVarInt_fd by exact Hl. now rewrite Hv.
  - exists (noncanonical "uint32"). split; [|reflexivity].
    rewrite ReadVarInt_fe by exact Hl. now rewrite Hv.
  - exists (noncanonical "uint64"). split; [|reflexivity].
    rewrite ReadVarInt_ff by exact Hl. now rewrite Hv.
Qed.

Lemma ReadVarInt_rejects_non_minimal_witness :
  non_minimal xfd [xfc; x00] = true /\
  exists e : error,
    ReadVarInt (xfd :: [xfc; x00] ++ [x11]) = (Err e, [x11]) /\
    spec_error_kind e = NonCanonicalEncoding.
Proof.
  assert (non_minimal xfd [xfc; x00] = true) as H by reflexivity.
  split; [exact H|].
  exact (ReadVarInt_rejects_non_minimal xfd [xfc; x00] [x11] H).
Defined.

(** A payload cut short after the discriminant 0xfd or 0xfe: the error of
    the payload read is dropped, the payload variable keeps its zero, and
    the canonical check fires. *)
Lemma ReadVarInt_short_fd (p : list byte) :
  (List.length p < 2)%nat ->
  ReadVarInt (xfd :: p) = (Err (noncanonical "uint16"), []).
Proof.
  intros Hp. unfold ReadVarInt, bind.
  change (xfd :: p) with ([xfd] ++ p).
  rewrite binary_Read_app by reflexivity.
  rewrite decode_uint8_single.
  change (Z_of_byte xfd) with 0xfd. cbn [check ret Z.eqb Pos.eqb].
  rewrite binary_Read_short by exact Hp.
  reflexivity.
Qed.

Lemma ReadVarInt_short_fe (p : list byte) :
  (List.length p < 4)%nat ->
  ReadVarInt (xfe :: p) = (Err (noncanonical "uint32"), []).
Proof.
  intros Hp. unfold ReadVarInt, bind.
  change (xfe :: p) with ([xfe] ++ p).
  rewrite binary_Read_app by reflexivity.
  rewrite decode_uint8_single.
  change (Z_of_byte xfe) with 0xfe. cbn [check ret Z.eqb Pos.eqb].
  rewrite binary_Read_short by exact Hp.
  reflexivity.
Qed.

(** With the discriminant 0xff the error of the payload read is kept. *)
Lemma ReadVarInt_short_ff (p : list byte) :
  (List.length p < 8)%nat ->
  ReadVarInt (xff :: p) =
    (Err (match p with [] => EOF | _ :: _ => ErrUnexpectedEOF end), []).
Proof.
  intros Hp. unfold ReadVarInt, bind.
  change (xff :: p) with ([xff] ++ p).
  rewrite binary_Read_app by reflexivity.
  rewrite decode_uint8_single.
  change (Z_of_byte xff) with 0xff. cbn [check ret Z.eqb Pos.eqb].
  rewrite binary_Read_short by exact Hp.
  reflexivity.
Qed.

(** C4, as the code behaves. On a stream that ends inside the payload of
    the 0xfd or the 0xfe tier [ReadVarInt] returns the error of the
    canonical check, of the kind NonCanonicalEncoding, not a truncation
    error; on the empty stream and inside the 0xff tier it returns
    [io.EOF] or [io.ErrUnexpectedEOF]. *)
Theorem ReadVarInt_truncated_payload :
  ReadVarInt [xfd] = (Err (noncanonical "uint16"), []) /\
  ReadVarInt [xfd; x34] = (Err (noncanonical "uint16"), []) /\
  ReadVarInt [xfe; x01; x02; x03] = (Err (noncanonical "uint32"), []) /\
  spec_error_kind (noncanonical "uint16") = NonCanonicalEncoding /\
  spec_error_kind (noncanonical "uint32") = NonCanonicalEncoding /\
  ReadVarInt [] = (Err EOF, []) /\
  ReadVarInt [xff] = (Err EOF, []) /\
  ReadVarInt [xff; x01; x02; x03] = (Err ErrUnexpectedEOF, []).
Proof.
  repeat split; vm_compute; reflexivity.
Qed.

(** ** Big-endian integers *)

Lemma SetBytes_fold (buf : list byte) (acc : Z) :
  fold_left (fun a b => a * 256 + Z_of_byte b) buf acc =
    acc * 256 ^ len buf + big.SetBytes buf.
Proof.
  unfold big.SetBytes. revert acc.
  induction buf as [|b buf IH]; intros acc.
  - cbn. lia.
  - cbn [fold_left]. rewrite IH, (IH (0 * 256 + Z_of_byte b)).
    replace (len (b :: buf)) with (1 + len buf)
      by (unfold len; cbn [List.length]; lia).
    rewrite Z.pow_add_r by (pose proof (len_nonneg buf); lia).
    lia.
Qed.

Lemma SetBytes_app (a b : list byte) :
  big.SetBytes (a ++ b) = big.SetBytes a * 256 ^ len b + big.SetBytes b.
Proof.
  unfold big.SetBytes at 1. rewrite fold_left_app.
  fold (big.SetBytes a). apply SetBytes_fold.
Qed.

Lemma SetBytes_range (buf : list byte) :
  0 <= big.SetBytes buf < 256 ^ len buf.
Proof.
  induction buf as [|b buf IH].
  - cbn. lia.
  - change (b :: buf) with ([b] ++ buf). rewrite SetBytes_app, len_app.
    pose proof (Z_of_byte_range b) as Hb. pose proof (len_nonneg buf) as Hl.
    change (big.SetBytes [b]) with (0 * 256 + Z_of_byte b).
    change (len [b]) with 1.
    rewrite Z.pow_add_r by lia. nia.
Qed.

Lemma SetBytes_zeros (n : nat) : big.SetBytes (repeat x00 n) = 0.
Proof.
  induction n as [|n IH]; [reflexivity|].
  cbn [repeat]. change (x00 :: repeat x00 n) with ([x00] ++ repeat x00 n).
  rewrite SetBytes_app, IH. reflexivity.
Qed.

Lemma SetBytes_rev (l : list byte) : big.SetBytes (rev l) = binary.Uint l.
Proof.
  induction l as [|b l IH]; [reflexivity|].
  cbn [rev]. rewrite SetBytes_app, IH, Uint_cons.
  change (big.SetBytes [b]) with (0 * 256 + Z_of_byte b).
  change (len [b]) with 1. lia.
Qed.

Lemma SetBytes_Bytes (v : Z) : big.SetBytes (big.Bytes v) = Z.abs v.
Proof.
  unfold big.Bytes.
  destruct (Z.eqb_spec (Z.abs v) 0) as [E|E]; [now rewrite E|].
  assert (0 < Z.abs v) as Hpos by lia.
  rewrite SetBytes_rev, Uint_PutUint_small; [reflexivity|].
  split; [lia|].
  apply Z.log2_lt_pow2; [exact Hpos|].
  pose proof (Z.log2_nonneg (Z.abs v)) as Hl.
  rewrite Z2Nat.id by (apply Z.add_nonneg_nonneg; [apply Z.div_pos|]; lia).
  pose proof (Z.mul_succ_div_gt (Z.log2 (Z.abs v)) 8 ltac:(lia)). lia.
Qed.

Lemma byte_of_Z_mod (z : Z) : byte_of_Z (z mod 256) = byte_of_Z z.
Proof. unfold byte_of_Z. rewrite Z.mod_mod by lia. reflexivity. Qed.

Lemma PutUint_Uint (l : list byte) :
  binary.PutUint (List.length l) (binary.Uint l) = l.
Proof.
  induction l as [|b l IH]; [reflexivity|].
  cbn [List.length binary.PutUint]. rewrite Uint_cons.
  pose proof (Z_of_byte_range b) as Hb.
  f_equal.
  - rewrite <- byte_of_Z_mod.
    replace ((Z_of_byte b + 256 * binary.Uint l) mod 256) with (Z_of_byte b).
    + apply byte_of_Z_of_byte.
    + rewrite Z.mul_comm, Z.mod_add by lia.
      symmetry. apply Z.mod_small. lia.
  - rewrite Z.shiftr_div_pow2 by lia. change (2 ^ 8) with 256.
    replace ((Z_of_byte b + 256 * binary.Uint l) / 256) with (binary.Uint l).
    + exact IH.
    + rewrite Z.mul_comm, Z.div_add by lia.
      rewrite (Z.div_small (Z_of_byte b)) by lia. lia.
Qed.

Lemma PutUint_shifts (n : nat) (x : Z) :
  binary.PutUint n x =
    map (fun k => byte_of_Z (Z.shiftr x (8 * Z.of_nat k))) (seq 0 n).
Proof.
  revert x. induction n as [|n IH]; intros x; [reflexivity|].
  cbn [binary.PutUint seq map]. f_equal.
  rewrite IH, <- seq_shift, map_map. apply map_ext. intros k.
  rewrite Z.shiftr_shiftr by lia. f_equal. f_equal. lia.
Qed.

Lemma big_endian_rev_PutUint (n : nat) (x : Z) :
  big_endian n x = rev (binary.PutUint n x).
Proof.
  unfold big_endian. now rewrite PutUint_shifts, map_rev.
Qed.

(** A slice of [n] bytes is the big-endian representation of its value. *)
Lemma big_endian_SetBytes (buf : list byte) :
  big_endian (List.length buf) (big.SetBytes buf) = buf.
Proof.
  rewrite big_endian_rev_PutUint.
  rewrite <- (rev_involutive buf) at 2.
  rewrite SetBytes_rev, <- length_rev, PutUint_Uint.
  apply rev_involutive.
Qed.

(** The last 32 bytes of a slice hold its value modulo 2^256. *)
Lemma SetBytes_last32 (b : list byte) :
  (32 <= List.length b)%nat ->
  let out := skipn (List.length b - 32) b in
  List.length out = 32%nat /\
  big.SetBytes out = big.SetBytes b mod 2 ^ 256.
Proof.
  intros Hb out. subst out.
  set (k := (List.length b - 32)%nat).
  assert (List.length (skipn k b) = 32%nat) as Hl
    by (rewrite length_skipn; subst k; lia).
  split; [exact Hl|].
  rewrite <- (firstn_skipn k b) at 2.
  rewrite SetBytes_app.
  pose proof (SetBytes_range (skipn k b)) as Hr.
  unfold len in *. rewrite Hl in *.
  change (256 ^ Z.of_nat 32) with (2 ^ 256) in *.
  rewrite Z.add_comm, Z.mod_add by lia.
  symmetry. apply Z.mod_small. exact Hr.
Qed.

(** ** WriteBigInt256 and ReadBigInt256 *)

Lemma io_Write_run (p : list byte) (w : io.Writer) :
  io.Write p w = (Ok (len p, None), w ++ p).
Proof. reflexivity. Qed.

Lemma WriteBigInt256_run (v : Z) (w : io.Writer) :
  WriteBigInt256 v w =
    (Ok tt,
     w ++ skipn (List.length (repeat x00 32 ++ big.Bytes v) - 32)
            (repeat x00 32 ++ big.Bytes v)).
Proof.
  unfold WriteBigInt256, bind. rewrite io_Write_run.
  set (b := repeat x00 32 ++ big.Bytes v).
  assert (32 <= List.length b)%nat as Hb
    by (subst b; rewrite length_app, repeat_length; lia).
  destruct (SetBytes_last32 b Hb) as [Hl _].
  unfold len. rewrite Hl. reflexivity.
Qed.

(** C10. For every non-negative [v], also when [v >= 2^256],
    [WriteBigInt256] returns a nil error and appends exactly 32 bytes to
    the sink: the big-endian, zero-padded representation of
    [v mod 2^256].  The high bytes of a wider value are dropped without an
    error. *)
Theorem WriteBigInt256_mod_2_256 (v : Z) (w : io.Writer) :
  0 <= v ->
  exists out : list byte,
    WriteBigInt256 v w = (Ok tt, w ++ out) /\
    List.length out = 32%nat /\
    big.SetBytes out = v mod 2 ^ 256 /\
    out = big_endian 32 (v mod 2 ^ 256).
Proof.
  intros Hv. rewrite WriteBigInt256_run.
  set (b := repeat x00 32 ++ big.Bytes v).
  assert (32 <= List.length b)%nat as Hb
    by (subst b; rewrite length_app, repeat_length; lia).
  destruct (SetBytes_last32 b Hb) as [Hl Hval].
  assert (big.SetBytes b = v) as Hbv.
  { subst b. rewrite SetBytes_app, SetBytes_zeros, SetBytes_Bytes. lia. }
  rewrite Hbv in Hval.
  eexists. split; [reflexivity|].
  split; [exact Hl|]. split; [exact Hval|].
  pose proof (big_endian_SetBytes (skipn (List.length b - 32) b)) as Hbe.
  rewrite Hl, Hval in Hbe. symmetry. exact Hbe.
Qed.

Lemma WriteBigInt256_mod_2_256_witness :
  0 <= 2 ^ 256 + 258 /\
  exists out : list byte,
    WriteBigInt256 (2 ^ 256 + 258) [] = (Ok tt, [] ++ out) /\
    List.length out = 32%nat /\
    big.SetBytes out = (2 ^ 256 + 258) mod 2 ^ 256 /\
    out = big_endian 32 ((2 ^ 256 + 258) mod 2 ^ 256).
Proof.
  assert (0 <= 2 ^ 256 + 258) as H by lia.
  split; [exact H|].
  exact (WriteBigInt256_mod_2_256 (2 ^ 256 + 258) [] H).
Defined.

Lemma SetBytes_cons_zero (b : list byte) :
  big.SetBytes (x00 :: b) = big.SetBytes b.
Proof. reflexivity. Qed.

Lemma strip_zeros_nonzero (S : Type) (b : list byte) (s : S) :
  big.SetBytes b <> 0 ->
  exists b', strip_zeros b s = (Ok b', s) /\ big.SetBytes b' = big.SetBytes b.
Proof.
  induction b as [|x b IH]; intros Hnz.
  - now elim Hnz.
  - cbn [strip_zeros]. destruct (Byte.eqb x x00) eqn:E.
    + apply Byte.byte_dec_bl in E. subst x.
      rewrite SetBytes_cons_zero in *. exact (IH Hnz).
    + eexists. split; reflexivity.
Qed.

Lemma strip_zeros_all_zero (S : Type) (n : nat) (s : S) :
  strip_zeros (repeat x00 n) s =
    (Panic "runtime error: index out of range [0] with length 0", s).
Proof. induction n as [|n IH]; [reflexivity|exact IH]. Qed.

(** On 32 bytes that are not all zero [ReadBigInt256] returns their
    big-endian value and leaves what follows them unread. *)
Lemma ReadBigInt256_nonzero (b rest : list byte) :
  List.length b = 32%nat ->
  big.SetBytes b <> 0 ->
  ReadBigInt256 (b ++ rest) = (Ok (big.SetBytes b), rest).
Proof.
  intros Hl Hnz. unfold ReadBigInt256, bind.
  rewrite Read_app by (unfold len; lia).
  unfold len. rewrite Hl. cbn [Z.eqb Z.of_nat Pos.of_succ_nat Pos.succ
    Pos.eqb negb check ret].
  destruct (strip_zeros_nonzero io.Reader b rest Hnz) as [b' [-> ->]].
  reflexivity.
Qed.

(** C5, as the code behaves. On 32 zero bytes the loop that strips
    leading zero bytes indexes the emptied slice and [ReadBigInt256]
    panics; it does not return the value 0.  Those 32 bytes are what
    [WriteBigInt256] writes for the value 0. *)
Theorem ReadBigInt256_zero_panics :
  ReadBigInt256 (repeat x00 32) =
    (Panic "runtime error: index out of range [0] with length 0", []) /\
  WriteBigInt256 0 [] = (Ok tt, repeat x00 32).
Proof. split; vm_compute; reflexivity. Qed.

(** C8. [WriteBigInt256] of the value 1 returns a nil error and appends
    exactly 32 bytes, 31 zero bytes and then 0x01; [ReadBigInt256] on those
    32 bytes returns the value 1 and leaves what follows them unread. *)
Theorem BigInt256_one (w : io.Writer) (rest : list byte) :
  WriteBigInt256 1 w = (Ok tt, w ++ repeat x00 31 ++ [x01]) /\
  List.length (repeat x00 31 ++ [x01]) = 32%nat /\
  ReadBigInt256 ((repeat x00 31 ++ [x01]) ++ rest) = (Ok 1, rest).
Proof.
  split; [|split].
  - rewrite WriteBigInt256_run. reflexivity.
  - reflexivity.
  - rewrite ReadBigInt256_nonzero; [reflexivity|reflexivity|].
    vm_compute. discriminate.
Qed.

(** ** Chain hashes *)

(** C9. [WriteChainHash] with a nil hash returns a nil error and appends
    exactly the 32 zero bytes of the null hash to the sink. *)
Theorem WriteChainHash_nil (w : io.Writer) :
  WriteChainHash None w = (Ok tt, w ++ repeat x00 32) /\
  List.length (repeat x00 32) = 32%nat.
Proof. split; reflexivity. Qed.

Lemma WriteChainHashList_range_run (lst : list (option chainhash.Hash))
    (w : io.Writer) :
  WriteChainHashList_range lst w = (Ok tt, w ++ List.concat (map hash_bytes lst)).
Proof.
  revert w. induction lst as [|h lst IH]; intros w.
  - cbn. now rewrite app_nil_r.
  - cbn [WriteChainHashList_range map List.concat]. unfold bind, discard.
    assert (exists res, WriteChainHash h w = (res, w ++ hash_bytes h)
                        /\ forall msg, res <> Panic msg) as [res [-> Hres]].
    { destruct h as [h|]; cbn [WriteChainHash hash_bytes nullHash];
        unfold bind; rewrite io_Write_run; unfold chainhash.CloneBytes.
      - destruct (negb (len h =? 32)); eexists; split;
          try reflexivity; discriminate.
      - eexists. split; [reflexivity|discriminate]. }
    destruct res as [[]|e|msg]; [| |now elim (Hres msg)];
      rewrite IH; now rewrite <- app_assoc.
Qed.

Lemma ReadChainHash_app (h rest : list byte) :
  List.length h = 32%nat ->
  ReadChainHash (h ++ rest) = (Ok (Some h), rest).
Proof.
  intros Hl. unfold ReadChainHash, bind.
  rewrite Read_app by (unfold len; lia).
  unfold chainhash.NewHash, chainhash.HashSize, len. rewrite Hl.
  reflexivity.
Qed.

Lemma read_list_ChainHash (hs : list chainhash.Hash)
    (acc : list (option chainhash.Hash)) (rest : list byte) :
  Forall (fun h => List.length h = 32%nat) hs ->
  read_list ReadChainHash (List.length hs) acc (List.concat hs ++ rest) =
    (Ok (acc ++ map Some hs), rest).
Proof.
  intros Hall. revert acc.
  induction Hall as [|h hs Hh Hall IH]; intros acc.
  - cbn. now rewrite app_nil_r.
  - cbn [List.length read_list List.concat map]. unfold bind.
    rewrite <- app_assoc, ReadChainHash_app by exact Hh.
    rewrite IH, <- app_assoc. reflexivity.
Qed.

(** C7. A list of chain hashes (32 bytes each), written by
    [WriteChainHashList] and read back by [ReadChainHashList], comes out as
    the same sequence in the same order, for every length of the list (0,
    1 or more); what follows the encoding on the stream stays unread.  The
    empty list is written as the single byte 0x00, which is what
    [WriteVarInt] writes for 0. *)
Theorem ChainHashList_round_trip (hs : list chainhash.Hash)
    (w : io.Writer) (rest : list byte) :
  Forall (fun h => List.length h = 32%nat) hs ->
  len hs < 2 ^ 64 ->
  exists enc : list byte,
    WriteChainHashList (map Some hs) w = (Ok tt, w ++ enc) /\
    ReadChainHashList (enc ++ rest) = (Ok (map Some hs), rest) /\
    (hs = [] -> enc = [x00] /\ WriteVarInt 0 w = (Ok tt, w ++ enc)).
Proof.
  intros Hall Hlen.
  pose proof (len_nonneg hs) as H0.
  assert (len (map Some hs) mod 2 ^ 64 = len hs) as Hcount.
  { unfold len. rewrite length_map. apply Z.mod_small. unfold len in *. lia. }
  exists (VarInt_bytes (len hs) ++ List.concat hs).
  split; [|split].
  - unfold WriteChainHashList, bind.
    rewrite Hcount, WriteVarInt_run, WriteChainHashList_range_run.
    rewrite map_map. cbn [hash_bytes]. rewrite map_id.
    now rewrite <- app_assoc.
  - unfold ReadChainHashList, bind.
    rewrite <- app_assoc, ReadVarInt_VarInt_bytes by lia.
    unfold len. rewrite Nat2Z.id.
    now rewrite read_list_ChainHash.
  - intros ->. split; [reflexivity|]. now rewrite WriteVarInt_run.
Qed.

Lemma ChainHashList_round_trip_witness :
  Forall (fun h => List.length h = 32%nat)
    [repeat x11 32; repeat x00 32; repeat xfe 32] /\
  len [repeat x11 32; repeat x00 32; repeat xfe 32] < 2 ^ 64 /\
  exists enc : list byte,
    WriteChainHashList
      (map Some [repeat x11 32; repeat x00 32; repeat xfe 32]) [] =
      (Ok tt, [] ++ enc) /\
    ReadChainHashList (enc ++ [x2a]) =
      (Ok (map Some [repeat x11 32; repeat x00 32; repeat xfe 32]), [x2a]) /\
    ([repeat x11 32; repeat x00 32; repeat xfe 32] = [] ->
     enc = [x00] /\ WriteVarInt 0 [] = (Ok tt, [] ++ enc)).
Proof.
  assert (Forall (fun h => List.length h = 32%nat)
            [repeat x11 32; repeat x00 32; repeat xfe 32]) as H1
    by (repeat constructor).
  assert (len [repeat x11 32; repeat x00 32; repeat xfe 32] < 2 ^ 64) as H2
    by (vm_compute; reflexivity).
  split; [exact H1|]. split; [exact H2|].
  exact (ChainHashList_round_trip _ [] [x2a] H1 H2).
Defined.

(** ** Fixed-width fields *)

(** One [Read] on a stream that holds fewer bytes than asked for: all of
    them are returned, with [io.EOF] when there was none. *)
Lemma Read_fewer (n : Z) (r : list byte) :
  len r < n ->
  io.Read n r =
    (Ok (r, match r with [] => Some EOF | _ :: _ => None end), []).
Proof.
  intros Hr. destruct r as [|x l]; [reflexivity|].
  now apply Read_short.
Qed.

Lemma ReadChainHash_short (r : list byte) :
  len r < 32 ->
  ReadChainHash r =
    (Err (Errorf "Couldn't read 32 bytes for chainhash" []), []).
Proof.
  intros Hr. unfold ReadChainHash, bind.
  rewrite Read_fewer by exact Hr.
  destruct (Z.eqb_spec (len r) 32); [lia|reflexivity].
Qed.

Lemma ReadHashLink_State_short (r : list byte) :
  len r < 32 ->
  ReadHashLink_State r =
    (Err (match r with
          | [] => EOF
          | _ :: _ => Errorf "Hashlink state not 32 bytes" []
          end), []).
Proof.
  intros Hr. unfold ReadHashLink_State, bind.
  rewrite Read_fewer by exact Hr.
  destruct r as [|x l]; [reflexivity|]. cbn [check ret].
  destruct (Z.eqb_spec (len (x :: l)) 32); [lia|reflexivity].
Qed.

Lemma ReadHashLink_State_app (p rest : list byte) :
  List.length p = 32%nat ->
  ReadHashLink_State (p ++ rest) = (Ok p, rest).
Proof.
  intros Hl. unfold ReadHashLink_State, bind.
  rewrite Read_app by (unfold len; lia).
  unfold len. rewrite Hl. reflexivity.
Qed.

Lemma ReadShareData_PubKeyHash_short (r : list byte) :
  len r < 20 ->
  ReadShareData_PubKeyHash r =
    (Err (match r with
          | [] => EOF
          | _ :: _ =>
              Errorf "Could not read pubkeyhash. Expected 20, got %d" [len r]
          end), []).
Proof.
  intros Hr. unfold ReadShareData_PubKeyHash, bind.
  rewrite Read_fewer by exact Hr.
  destruct r as [|x l]; [reflexivity|]. cbn [check ret].
  destruct (Z.ltb_spec (len (x :: l)) 20); [reflexivity|lia].
Qed.

Lemma ReadShareData_PubKeyHash_app (p rest : list byte) :
  List.length p = 20%nat ->
  ReadShareData_PubKeyHash (p ++ rest) = (Ok p, rest).
Proof.
  intros Hl. unfold ReadShareData_PubKeyHash, bind.
  rewrite Read_app by (unfold len; lia).
  unfold len. rewrite Hl. reflexivity.
Qed.

Lemma ReadShareInfo_AbsWork_short (r : list byte) :
  len r < 16 ->
  ReadShareInfo_AbsWork r =
    (Err (match r with
          | [] => EOF
          | _ :: _ =>
              Errorf "Could not read abswork 16 bytes, read %d in stead"
                [len r]
          end), []).
Proof.
  intros Hr. unfold ReadShareInfo_AbsWork, bind.
  rewrite Read_fewer by exact Hr.
  destruct r as [|x l]; [reflexivity|]. cbn [check ret].
  destruct (Z.ltb_spec (len (x :: l)) 16); [reflexivity|lia].
Qed.

Lemma ReadShareInfo_AbsWork_app (p rest : list byte) :
  List.length p = 16%nat ->
  ReadShareInfo_AbsWork (p ++ rest) = (Ok (big.SetBytes p), rest).
Proof.
  intros Hl. unfold ReadShareInfo_AbsWork, bind.
  rewrite Read_app by (unfold len; lia).
  unfold len. rewrite Hl. reflexivity.
Qed.

Lemma ReadIPAddr_short (r : list byte) :
  len r < 16 ->
  ReadIPAddr r = (Err (Errorf "Unable to read IP address" []), []).
Proof.
  intros Hr. unfold ReadIPAddr, bind.
  rewrite Read_fewer by exact Hr.
  destruct (Z.eqb_spec (len r) 16); [lia|reflexivity].
Qed.

Lemma ReadIPAddr_app (p rest : list byte) :
  List.length p = 16%nat ->
  ReadIPAddr (p ++ rest) = (Ok p, rest).
Proof.
  intros Hl. unfold ReadIPAddr, bind.
  rewrite Read_app by (unfold len; lia).
  unfold len. rewrite Hl. reflexivity.
Qed.

Lemma ReadHashLink_run (r : io.Reader) :
  ReadHashLink r =
    match ReadHashLink_State r with
    | (Ok state, r1) =>
        match ReadVarInt r1 with
        | (Ok n, r2) => (Ok {| State := state; Length := n |}, r2)
        | (Err e, r2) => (Err e, r2)
        | (Panic msg, r2) => (Panic msg, r2)
        end
    | (Err e, r1) => (Err e, r1)
    | (Panic msg, r1) => (Panic msg, r1)
    end.
Proof.
  unfold ReadHashLink, bind.
  destruct (ReadHashLink_State r) as [[state|e|msg] r1]; reflexivity.
Qed.

Lemma ReadVarString_app (cb rest : list byte) :
  len cb <= maxAlloc ->
  ReadVarString (VarInt_bytes (len cb) ++ cb ++ rest) = (Ok cb, rest).
Proof.
  intros Hcb. pose proof (len_nonneg cb) as H0.
  assert (maxAlloc = 2 ^ 48) as Hmax by reflexivity.
  unfold ReadVarString, bind.
  rewrite ReadVarInt_VarInt_bytes by lia.
  unfold make_bytes.
  destruct (Z.ltb_spec maxAlloc (len cb)) as [H1|H1]; [lia|].
  cbn [ret].
  destruct cb as [|x cb].
  - cbn [app]. change (len (@nil byte)) with 0.
    unfold io.Read. destruct rest as [|y rest]; [reflexivity|].
    replace (Z.min 0 (len (y :: rest))) with 0
      by (pose proof (len_nonneg (y :: rest)); lia).
    reflexivity.
  - rewrite Read_app by (unfold len in *; cbn [List.length] in *; lia).
    rewrite Z.eqb_refl. reflexivity.
Qed.

(** Inside [ReadShareData]: once the previous-share hash, the coinbase
    string and the nonce are read, an error of the pubKeyHash read is the
    error of [ReadShareData]. *)
Lemma ReadShareData_PubKeyHash_error (h cb nb r1 : list byte)
    (e : error) (r' : io.Reader) :
  List.length h = 32%nat ->
  len cb <= maxAlloc ->
  List.length nb = 4%nat ->
  ReadShareData_PubKeyHash r1 = (Err e, r') ->
  ReadShareData (h ++ VarInt_bytes (len cb) ++ cb ++ nb ++ r1) = (Err e, r').
Proof.
  intros Hh Hcb Hnb Hpk. unfold ReadShareData, bind.
  rewrite ReadChainHash_app by exact Hh.
  rewrite ReadVarString_app by exact Hcb.
  rewrite binary_Read_app by exact Hnb.
  cbn [check ret]. rewrite Hpk. reflexivity.
Qed.

(** C6. Each fixed-width field (the 32-byte chain hash, the 32-byte
    hash-link state, the 20-byte pubKeyHash read inside [ReadShareData], the
    16-byte absWork read inside [ReadShareInfo], the 16-byte IP address):
    on a stream that holds fewer bytes than the field needs the decode
    fails with an error of the kind TruncatedInput; on a stream that holds
    the bytes of the field and then any other bytes the decode succeeds,
    takes exactly the bytes of the field and leaves the others unread. *)
Theorem fixed_width_fields
    (r32 r20 r16 p32 p20 p16 rest h cb nb : list byte) :
  len r32 < 32 -> len r20 < 20 -> len r16 < 16 ->
  List.length p32 = 32%nat ->
  List.length p20 = 20%nat ->
  List.length p16 = 16%nat ->
  List.length h = 32%nat -> len cb <= maxAlloc -> List.length nb = 4%nat ->
  (exists e, ReadChainHash r32 = (Err e, []) /\
             spec_error_kind e = TruncatedInput) /\
  (exists e, ReadHashLink_State r32 = (Err e, []) /\
             ReadHashLink r32 = (Err e, []) /\
             spec_error_kind e = TruncatedInput) /\
  (exists e, ReadShareData_PubKeyHash r20 = (Err e, []) /\
             ReadShareData (h ++ VarInt_bytes (len cb) ++ cb ++ nb ++ r20) =
               (Err e, []) /\
             spec_error_kind e = TruncatedInput) /\
  (exists e, ReadShareInfo_AbsWork r16 = (Err e, []) /\
             spec_error_kind e = TruncatedInput) /\
  (exists e, ReadIPAddr r16 = (Err e, []) /\
             spec_error_kind e = TruncatedInput) /\
  ReadChainHash (p32 ++ rest) = (Ok (Some p32), rest) /\
  ReadHashLink_State (p32 ++ rest) = (Ok p32, rest) /\
  ReadShareData_PubKeyHash (p20 ++ rest) = (Ok p20, rest) /\
  ReadShareInfo_AbsWork (p16 ++ rest) = (Ok (big.SetBytes p16), rest) /\
  ReadIPAddr (p16 ++ rest) = (Ok p16, rest).
Proof.
  intros Hr32 Hr20 Hr16 Hp32 Hp20 Hp16 Hh Hcb Hnb.
  repeat apply conj.
  - eexists. split; [now apply ReadChainHash_short|reflexivity].
  - eexists. split; [now apply ReadHashLink_State_short|]. split.
    + rewrite ReadHashLink_run, ReadHashLink_State_short by exact Hr32.
      reflexivity.
    + destruct r32; reflexivity.
  - eexists. split; [now apply ReadShareData_PubKeyHash_short|]. split.
    + apply ReadShareData_PubKeyHash_error; try assumption.
      now apply ReadShareData_PubKeyHash_short.
    + destruct r20; reflexivity.
  - eexists. split; [now apply ReadShareInfo_AbsWork_short|].
    destruct r16; reflexivity.
  - eexists. split; [now apply ReadIPAddr_short|reflexivity].
  - now apply ReadChainHash_app.
  - now apply ReadHashLink_State_app.
  - now apply ReadShareData_PubKeyHash_app.
  - now apply ReadShareInfo_AbsWork_app.
  - now apply ReadIPAddr_app.
Qed.

Lemma fixed_width_fields_witness :
  let r := [x01; x02; x03] in
  let p32 := repeat x5a 32 in
  let p20 := repeat x5b 20 in
  let p16 := repeat x5c 16 in
  let rest := [x07; x08] in
  let h := repeat x11 32 in
  let cb := [x61; x62] in
  let nb := [x2a; x00; x00; x00] in
  (len r < 32 /\ len r < 20 /\ len r < 16 /\
   List.length p32 = 32%nat /\ List.length p20 = 20%nat /\
   List.length p16 = 16%nat /\
   List.length h = 32%nat /\ len cb <= maxAlloc /\ List.length nb = 4%nat) /\
  (exists e, ReadChainHash r = (Err e, []) /\
             spec_error_kind e = TruncatedInput) /\
  (exists e, ReadHashLink_State r = (Err e, []) /\
             ReadHashLink r = (Err e, []) /\
             spec_error_kind e = TruncatedInput) /\
  (exists e, ReadShareData_PubKeyHash r = (Err e, []) /\
             ReadShareData (h ++ VarInt_bytes (len cb) ++ cb ++ nb ++ r) =
               (Err e, []) /\
             spec_error_kind e = TruncatedInput) /\
  (exists e, ReadShareInfo_AbsWork r = (Err e, []) /\
             spec_error_kind e = TruncatedInput) /\
  (exists e, ReadIPAddr r = (Err e, []) /\
             spec_error_kind e = TruncatedInput) /\
  ReadChainHash (p32 ++ rest) = (Ok (Some p32), rest) /\
  ReadHashLink_State (p32 ++ rest) = (Ok p32, rest) /\
  ReadShareData_PubKeyHash (p20 ++ rest) = (Ok p20, rest) /\
  ReadShareInfo_AbsWork (p16 ++ rest) = (Ok (big.SetBytes p16), rest) /\
  ReadIPAddr (p16 ++ rest) = (Ok p16, rest).
Proof.
  intros r p32 p20 p16 rest h cb nb.
  assert (len r < 32) as H1 by (vm_compute; reflexivity).
  assert (len r < 20) as H2 by (vm_compute; reflexivity).
  assert (len r < 16) as H3 by (vm_compute; reflexivity).
  assert (List.length p32 = 32%nat) as H4 by reflexivity.
  assert (List.length p20 = 20%nat) as H5 by reflexivity.
  assert (List.length p16 = 16%nat) as H6 by reflexivity.
  assert (List.length h = 32%nat) as H7 by reflexivity.
  assert (len cb <= maxAlloc) as H8 by (vm_compute; discriminate).
  assert (List.length nb = 4%nat) as H9 by reflexivity.
  split; [repeat split; assumption|].
  exact (fixed_width_fields r r r p32 p20 p16 rest h cb nb
           H1 H2 H3 H4 H5 H6 H7 H8 H9).
Defined.

(** ** ShareInfo *)

Lemma binary_Read_ok_iff (t : binary.kind) (old v : Z) (r r' : io.Reader) :
  binary.Read t old r = (Ok (v, None), r') <->
  exists b : list byte,
    List.length b = binary.size t /\ r = b ++ r' /\ v = binary.decode t b.
Proof.
  split.
  - intros H.
    destruct (Nat.lt_ge_cases (List.length r) (binary.size t)) as [Hs|Hs].
    + rewrite binary_Read_short in H by exact Hs. discriminate.
    + rewrite <- (firstn_skipn (binary.size t) r) in H.
      rewrite binary_Read_app in H by (rewrite length_firstn; lia).
      injection H as Hv Hr.
      exists (firstn (binary.size t) r). rewrite length_firstn.
      split; [lia|]. split; [|now symmetry].
      rewrite <- Hr. symmetry. apply firstn_skipn.
  - intros [b [Hl [-> ->]]]. now apply binary_Read_app.
Qed.

Lemma binary_Read_uint32_ok_iff (v : Z) (r r' : io.Reader) :
  binary.Read binary.uint32 0 r = (Ok (v, None), r') <-> le_field 4 v r r'.
Proof. apply binary_Read_ok_iff. Qed.

Lemma ReadShareInfo_AbsWork_ok_iff (v : Z) (r r' : io.Reader) :
  ReadShareInfo_AbsWork r = (Ok v, r') <-> be_field 16 v r r'.
Proof.
  split.
  - intros H.
    destruct (Z.lt_ge_cases (len r) 16) as [Hs|Hs].
    + rewrite ReadShareInfo_AbsWork_short in H by exact Hs. discriminate.
    + unfold len in Hs.
      rewrite <- (firstn_skipn 16 r) in H.
      rewrite ReadShareInfo_AbsWork_app in H by (rewrite length_firstn; lia).
      injection H as Hv Hr.
      exists (firstn 16 r). rewrite length_firstn.
      split; [lia|]. split; [|now symmetry].
      rewrite <- Hr. symmetry. apply firstn_skipn.
  - intros [b [Hl [-> ->]]]. now apply ReadShareInfo_AbsWork_app.
Qed.

Lemma binary_Read_cases (t : binary.kind) (old : Z) (r : io.Reader) :
  (exists v r', binary.Read t old r = (Ok (v, None), r')) \/
  (exists e r', binary.Read t old r = (Ok (old, Some e), r')).
Proof.
  destruct (Nat.lt_ge_cases (List.length r) (binary.size t)) as [Hs|Hs].
  - right. rewrite binary_Read_short by exact Hs. eauto.
  - left. rewrite <- (firstn_skipn (binary.size t) r).
    rewrite binary_Read_app by (rewrite length_firstn; lia). eauto.
Qed.

(** The segwit step of [ReadShareInfo]. *)
Lemma segwit_step_ok (segwit : bool) (r : io.Reader) (sg : SegwitData)
    (r' : io.Reader) :
  (if segwit then ReadSegwitData else ret SegwitData_zero) r = (Ok sg, r') ->
  if segwit then ReadSegwitData r = (Ok sg, r')
  else sg = SegwitData_zero /\ r' = r.
Proof.
  intros H. destruct segwit; [exact H|].
  injection H as <- <-. split; reflexivity.
Qed.

Ltac run_field H x rx E :=
  match type of H with
  | context [match ?f ?r with (_, _) => _ end] =>
      destruct (f r) as [[x|?e|?msg] rx] eqn:E in H
  end.

Ltac run_u32 H x rx E :=
  match type of H with
  | context [match binary.Read binary.uint32 0 ?r with (_, _) => _ end] =>
      let e := fresh "e" in
      destruct (binary_Read_cases binary.uint32 0 r) as [(x & rx & E)|(e & rx & E)];
      rewrite E in H; cbn [check ret fail] in H
  end.

Lemma ReadShareInfo_ok_decoded segwit r si r' :
  ReadShareInfo segwit r = (Ok si, r') -> decoded_upto 10 segwit r si r'.
Proof.
  unfold ReadShareInfo, bind. intros H.
  run_field H sd r1 E0; try discriminate H.
  run_field H sg r2 E1; try discriminate H.
  run_field H hashes r3 E2; try discriminate H.
  run_field H refs r4 E3; try discriminate H.
  run_field H far r5 E4; try discriminate H.
  run_u32 H maxBits r6 E5; try discriminate H.
  run_u32 H bits r7 E6; try discriminate H.
  run_u32 H ts r8 E7; try discriminate H.
  run_u32 H ht r9 E8; try discriminate H.
  run_field H work r10 E9; try discriminate H.
  cbn [ret] in H. injection H as <- <-.
  apply binary_Read_uint32_ok_iff in E5, E6, E7, E8.
  apply ReadShareInfo_AbsWork_ok_iff in E9.
  apply segwit_step_ok in E1.
  cbn [decoded_upto].
  exists r9; split; [|exact E9].
  exists r8; split; [|exact E8].
  exists r7; split; [|exact E7].
  exists r6; split; [|exact E6].
  exists r5; split; [|exact E5].
  exists r4; split; [|exact E4].
  exists r3; split; [|exact E3].
  exists r2; split; [|exact E2].
  exists r1; split; [|exact E1].
  exists r; split; [reflexivity|exact E0].
Qed.

Lemma segwit_step_of_decoded (segwit : bool) (r r' : io.Reader) (si : ShareInfo) :
  field_decoded 1 segwit r si r' ->
  (if segwit then ReadSegwitData else ret SegwitData_zero) r =
    (Ok (SegwitData_ si), r').
Proof.
  destruct segwit; cbn [field_decoded]; [trivial|].
  intros [-> ->]. reflexivity.
Qed.

Ltac open_prefix :=
  cbn [decoded_upto field_decoded field_fails] in *;
  repeat match goal with
    | H : exists _, _ |- _ => destruct H
    | H : _ /\ _ |- _ => destruct H
    end;
  subst;
  repeat match goal with
    | H : le_field 4 _ _ _ |- _ => apply binary_Read_uint32_ok_iff in H
    | H : be_field 16 _ _ _ |- _ => apply ReadShareInfo_AbsWork_ok_iff in H
    | H : (if ?b then _ else _) |- _ =>
        apply (segwit_step_of_decoded b) in H
    end.

Ltac replay :=
  unfold ReadShareInfo, bind;
  repeat match goal with
    | H : ?f ?r = _ |- context [?f ?r] => rewrite H; cbn [check ret fail]
    end.

Lemma ReadShareInfo_decoded_ok segwit r si r' :
  decoded_upto 10 segwit r si r' -> ReadShareInfo segwit r = (Ok si, r').
Proof.
  intros H. open_prefix. replay. destruct si; reflexivity.
Qed.

Lemma ReadShareInfo_field_error segwit r e r' j si rj :
  (j < 10)%nat ->
  decoded_upto j segwit r si rj ->
  field_fails j segwit rj e r' ->
  ReadShareInfo segwit r = (Err e, r').
Proof.
  intros Hj Hpre Hfail.
  do 10 (destruct j as [|j]; [open_prefix; replay; reflexivity|]).
  lia.
Qed.

Lemma segwit_step_error (segwit : bool) (r : io.Reader) (e : error) (r' : io.Reader) :
  (if segwit then ReadSegwitData else ret SegwitData_zero) r = (Err e, r') ->
  field_fails 1 segwit r e r'.
Proof.
  destruct segwit; cbn [field_fails]; [now split|discriminate].
Qed.

Ltac close_prefix :=
  cbn [decoded_upto field_decoded field_fails ShareData_ SegwitData_
       NewTransactionHashes TransactionHashRefs FarShareHash MaxBits Bits
       Timestamp AbsHeight AbsWork];
  repeat match goal with
    | |- exists _, _ => eexists
    | |- _ /\ _ => split
    | |- _ = _ => first [eassumption | reflexivity]
    | |- le_field 4 _ _ _ => apply binary_Read_uint32_ok_iff; eassumption
    | |- be_field 16 _ _ _ => apply ReadShareInfo_AbsWork_ok_iff; eassumption
    | |- (if ?b then _ else _) =>
        apply segwit_step_ok; eassumption
    end.

Lemma ReadShareInfo_error_field segwit r e r' :
  ReadShareInfo segwit r = (Err e, r') ->
  exists (j : nat) (si : ShareInfo) (rj : io.Reader),
    (j < 10)%nat /\
    decoded_upto j segwit r si rj /\
    field_fails j segwit rj e r'.
Proof.
  unfold ReadShareInfo, bind. intros H.
  run_field H sd r1 E0; try discriminate H.
  2:{ injection H as <- <-. exists 0%nat, ShareInfo_zero, r.
      split; [lia|]. split; [reflexivity|exact E0]. }
  run_field H sg r2 E1; try discriminate H.
  2:{ injection H as <- <-.
      exists 1%nat, (Build_ShareInfo sd SegwitData_zero [] [] None 0 0 0 0 0), r1.
      split; [lia|]. split; [close_prefix|now apply segwit_step_error]. }
  run_field H hashes r3 E2; try discriminate H.
  2:{ injection H as <- <-.
      exists 2%nat, (Build_ShareInfo sd sg [] [] None 0 0 0 0 0), r2.
      split; [lia|]. split; [close_prefix|exact E2]. }
  run_field H refs r4 E3; try discriminate H.
  2:{ injection H as <- <-.
      exists 3%nat, (Build_ShareInfo sd sg hashes [] None 0 0 0 0 0), r3.
      split; [lia|]. split; [close_prefix|exact E3]. }
  run_field H far r5 E4; try discriminate H.
  2:{ injection H as <- <-.
      exists 4%nat, (Build_ShareInfo sd sg hashes refs None 0 0 0 0 0), r4.
      split; [lia|]. split; [close_prefix|exact E4]. }
  run_u32 H maxBits r6 E5.
  2:{ injection H as <- <-.
      exists 5%nat, (Build_ShareInfo sd sg hashes refs far 0 0 0 0 0), r5.
      split; [lia|]. split; [close_prefix|eexists; exact E5]. }
  run_u32 H bits r7 E6.
  2:{ injection H as <- <-.
      exists 6%nat, (Build_ShareInfo sd sg hashes refs far maxBits 0 0 0 0), r6.
      split; [lia|]. split; [close_prefix|eexists; exact E6]. }
  run_u32 H ts r8 E7.
  2:{ injection H as <- <-.
      exists 7%nat, (Build_ShareInfo sd sg hashes refs far maxBits bits 0 0 0), r7.
      split; [lia|]. split; [close_prefix|eexists; exact E7]. }
  run_u32 H ht r9 E8.
  2:{ injection H as <- <-.
      exists 8%nat, (Build_ShareInfo sd sg hashes refs far maxBits bits ts 0 0), r8.
      split; [lia|]. split; [close_prefix|eexists; exact E8]. }
  run_field H work r10 E9; try discriminate H.
  injection H as <- <-.
  exists 9%nat, (Build_ShareInfo sd sg hashes refs far maxBits bits ts ht 0), r9.
  split; [lia|]. split; [close_prefix|exact E9].
Qed.

(** [ReadShareInfo] in terms of the decoders it calls: it succeeds
    exactly when the ten fields decode one after the other, each from
    where the one before it stopped, and it returns an error exactly when
    some field fails after all fields before it have decoded, with the
    error of that field. *)
Lemma ReadShareInfo_field_order (segwit : bool) (r : io.Reader) :
  (forall (si : ShareInfo) (r' : io.Reader),
     ReadShareInfo segwit r = (Ok si, r') <->
     decoded_upto 10 segwit r si r') /\
  (forall (e : error) (r' : io.Reader),
     ReadShareInfo segwit r = (Err e, r') <->
     exists (j : nat) (si : ShareInfo) (rj : io.Reader),
       (j < 10)%nat /\
       decoded_upto j segwit r si rj /\
       field_fails j segwit rj e r').
Proof.
  split.
  - intros si r'. split.
    + apply ReadShareInfo_ok_decoded.
    + apply ReadShareInfo_decoded_ok.
  - intros e r'. split.
    + apply ReadShareInfo_error_field.
    + intros (j & si & rj & Hj & Hpre & Hfail).
      exact (ReadShareInfo_field_error segwit r e r' j si rj Hj Hpre Hfail).
Qed.

(** The sample share decodes field by field; with the flag on, the
    SegwitData is taken from the bytes that follow the ShareData. *)
Example ReadShareInfo_sample :
  ReadShareInfo false (sample_ShareData_bytes ++ sample_tail_bytes ++ [xaa]) =
    (Ok (sample_ShareInfo SegwitData_zero), [xaa]) /\
  ReadShareInfo true
    (sample_ShareData_bytes ++ sample_SegwitData_bytes ++ sample_tail_bytes) =
    (Ok (sample_ShareInfo
           {| TXIDMerkleLink := [];
              WTXIDMerkleRoot := Some (repeat x44 32) |}), []).
Proof. split; vm_compute; reflexivity. Qed.

(** The same bytes, written without a SegwitData and read with the flag
    on, or cut inside a field: the error of the field that fails. *)
Example ReadShareInfo_sample_errors :
  ReadShareInfo true (sample_ShareData_bytes ++ sample_tail_bytes ++ [xaa]) =
    (Err (Errorf "Couldn't read 32 bytes for chainhash" []), []) /\
  ReadShareInfo false (sample_ShareData_bytes ++ [x01] ++ repeat x22 31) =
    (Err (Errorf "Couldn't read 32 bytes for chainhash" []), []) /\
  ReadShareInfo false (firstn 60 sample_ShareData_bytes) =
    (Err (Errorf "Could not read pubkeyhash. Expected 20, got %d" [19]), []).
Proof. repeat split; vm_compute; reflexivity. Qed.

(** * Further properties of [readwrite.go] *)

(** ** VarInt and VarString, both ways *)

Lemma binary_Read_uint8_cons (old : Z) (d : byte) (r : list byte) :
  binary.Read binary.uint8 old (d :: r) = (Ok (Z_of_byte d, None), r).
Proof.
  change (d :: r) with ([d] ++ r).
  rewrite binary_Read_app by reflexivity.
  now rewrite decode_uint8_single.
Qed.

Lemma byte_of_value (d : byte) (z : Z) : Z_of_byte d = z -> d = byte_of_Z z.
Proof. intros <-. symmetry. apply byte_of_Z_of_byte. Qed.

(** Every outcome of [ReadVarInt], by the shape of the stream. *)
Lemma ReadVarInt_outcome (r : io.Reader) :
  (exists v r', ReadVarInt r = (Ok v, r') /\ 0 <= v <= 2 ^ 64 - 1 /\
                r = VarInt_bytes v ++ r') \/
  (exists e r', ReadVarInt r = (Err e, r') /\
                In e [EOF; ErrUnexpectedEOF; noncanonical "uint16";
                      noncanonical "uint32"; noncanonical "uint64"]).
Proof.
  destruct r as [|d r]; [right; exists EOF, []; split; [reflexivity|cbn; auto]|].
  pose proof (Z_of_byte_range d) as Hd.
  unfold ReadVarInt, bind. rewrite binary_Read_uint8_cons. cbn [check ret].
  destruct (Z.eqb_spec (Z_of_byte d) 0xff) as [Hff|Hff].
  { apply byte_of_value in Hff. change (byte_of_Z 0xff) with xff in Hff. subst d.
    destruct (binary_Read_cases binary.uint64 0 r) as [(v & r' & E)|(e & r' & E)].
    - rewrite E. cbn [check ret].
      apply binary_Read_ok_iff in E. destruct E as (p & Hl & -> & ->).
      cbn [binary.decode binary.size] in *.
      pose proof (Uint_range p) as Hr. unfold len in Hr. rewrite Hl in Hr.
      change (2 ^ (8 * Z.of_nat 8)) with (2 ^ 64) in Hr.
      destruct (Z.ltb_spec (binary.Uint p) 0x100000000) as [Hlt|Hge].
      + right. do 2 eexists. split; [reflexivity|cbn; auto 10].
      + left. do 2 eexists. split; [reflexivity|]. split; [lia|].
        unfold VarInt_bytes.
        destruct (Z.ltb_spec (binary.Uint p) 0xfd); [lia|].
        destruct (Z.leb_spec (binary.Uint p) 0xffff); [lia|].
        destruct (Z.leb_spec (binary.Uint p) 0xffffffff); [lia|].
        rewrite <- Hl, PutUint_Uint. reflexivity.
    - rewrite E. cbn [check fail]. right. do 2 eexists. split; [reflexivity|].
      destruct (Nat.lt_ge_cases (List.length r) 8) as [Hs|Hs].
      + rewrite binary_Read_short in E by exact Hs.
        injection E as <- _. destruct r; cbn; auto.
      + rewrite <- (firstn_skipn 8 r) in E.
        rewrite binary_Read_app in E
          by (rewrite length_firstn; cbn [binary.size]; lia).
        discriminate E. }
  destruct (Z.eqb_spec (Z_of_byte d) 0xfe) as [Hfe|Hfe].
  { apply byte_of_value in Hfe. change (byte_of_Z 0xfe) with xfe in Hfe. subst d.
    destruct (binary_Read_cases binary.uint32 0 r) as [(v & r' & E)|(e & r' & E)].
    - rewrite E. cbn [check ret].
      apply binary_Read_ok_iff in E. destruct E as (p & Hl & -> & ->).
      cbn [binary.decode binary.size] in *.
      pose proof (Uint_range p) as Hr. unfold len in Hr. rewrite Hl in Hr.
      change (2 ^ (8 * Z.of_nat 4)) with (2 ^ 32) in Hr.
      destruct (Z.ltb_spec (binary.Uint p) 0x10000) as [Hlt|Hge].
      + right. do 2 eexists. split; [reflexivity|cbn; auto 10].
      + left. do 2 eexists. split; [reflexivity|]. split; [lia|].
        unfold VarInt_bytes.
        destruct (Z.ltb_spec (binary.Uint p) 0xfd); [lia|].
        destruct (Z.leb_spec (binary.Uint p) 0xffff); [lia|].
        destruct (Z.leb_spec (binary.Uint p) 0xffffffff); [|lia].
        rewrite <- Hl, PutUint_Uint. reflexivity.
    - rewrite E. cbn [check ret]. right. do 2 eexists.
      split; [reflexivity|cbn; auto 10]. }
  destruct (Z.eqb_spec (Z_of_byte d) 0xfd) as [Hfd|Hfd].
  { apply byte_of_value in Hfd. change (byte_of_Z 0xfd) with xfd in Hfd. subst d.
    destruct (binary_Read_cases binary.uint16 0 r) as [(v & r' & E)|(e & r' & E)].
    - rewrite E. cbn [check ret].
      apply binary_Read_ok_iff in E. destruct E as (p & Hl & -> & ->).
      cbn [binary.decode binary.size] in *.
      pose proof (Uint_range p) as Hr. unfold len in Hr. rewrite Hl in Hr.
      change (2 ^ (8 * Z.of_nat 2)) with (2 ^ 16) in Hr.
      destruct (Z.ltb_spec (binary.Uint p) 0xfd) as [Hlt|Hge].
      + right. do 2 eexists. split; [reflexivity|cbn; auto 10].
      + left. do 2 eexists. split; [reflexivity|]. split; [lia|].
        unfold VarInt_bytes.
        destruct (Z.ltb_spec (binary.Uint p) 0xfd); [lia|].
        destruct (Z.leb_spec (binary.Uint p) 0xffff); [|lia].
        rewrite <- Hl, PutUint_Uint. reflexivity.
    - rewrite E. cbn [check ret]. right. do 2 eexists.
      split; [reflexivity|cbn; auto 10]. }
  left. do 2 eexists. split; [reflexivity|]. split; [lia|].
  unfold VarInt_bytes.
  destruct (Z.ltb_spec (Z_of_byte d) 0xfd); [|lia].
  cbn [binary.PutUint app]. now rewrite byte_of_Z_of_byte.
Qed.

(** X1. Whatever [ReadVarInt] decodes successfully is canonical: the
    value is a uint64 and the bytes it consumed are exactly the bytes
    [WriteVarInt] writes for that value.  No second byte string decodes
    to the same value. *)
Theorem ReadVarInt_accepts_only_canonical (r r' : io.Reader) (v : Z) :
  ReadVarInt r = (Ok v, r') ->
  0 <= v <= 2 ^ 64 - 1 /\
  exists enc : list byte,
    WriteVarInt v [] = (Ok tt, enc) /\ r = enc ++ r'.
Proof.
  intros H.
  destruct (ReadVarInt_outcome r) as [(v0 & r0 & E & Hv & Hr)|(e & r0 & E & _)];
    rewrite E in H; [|discriminate H].
  injection H as <- <-. split; [exact Hv|].
  exists (VarInt_bytes v0). split; [|exact Hr].
  now rewrite WriteVarInt_run.
Qed.

Lemma ReadVarInt_accepts_only_canonical_witness :
  ReadVarInt [xfd; x00; x01; x09] = (Ok 256, [x09]) /\
  0 <= 256 <= 2 ^ 64 - 1 /\
  exists enc : list byte,
    WriteVarInt 256 [] = (Ok tt, enc) /\ [xfd; x00; x01; x09] = enc ++ [x09].
Proof.
  assert (ReadVarInt [xfd; x00; x01; x09] = (Ok 256, [x09])) as H
    by (vm_compute; reflexivity).
  split; [exact H|].
  exact (ReadVarInt_accepts_only_canonical _ _ _ H).
Defined.

(** X2. [ReadVarInt] never panics; a value it returns is a uint64; an
    error it returns is [io.EOF], [io.ErrUnexpectedEOF] or one of its three
    "not canonically packed" errors. *)
Theorem ReadVarInt_never_panics (r : io.Reader) :
  match fst (ReadVarInt r) with
  | Ok v => 0 <= v <= 2 ^ 64 - 1
  | Err e =>
      In e [EOF; ErrUnexpectedEOF; noncanonical "uint16";
            noncanonical "uint32"; noncanonical "uint64"]
  | Panic _ => False
  end.
Proof.
  destruct (ReadVarInt_outcome r) as [(v & r' & E & Hv & _)|(e & r' & E & He)];
    rewrite E; assumption.
Qed.

(** X3. The encodings of [WriteVarInt] are prefix-free: if the bytes
    written for [v1], followed by some bytes, equal the bytes written for
    [v2], followed by some bytes, then [v1 = v2] and the bytes that follow
    are the same. *)
Theorem WriteVarInt_prefix_free (v1 v2 : Z) (e1 e2 r1 r2 : list byte) :
  0 <= v1 <= 2 ^ 64 - 1 ->
  0 <= v2 <= 2 ^ 64 - 1 ->
  WriteVarInt v1 [] = (Ok tt, e1) ->
  WriteVarInt v2 [] = (Ok tt, e2) ->
  e1 ++ r1 = e2 ++ r2 ->
  v1 = v2 /\ e1 = e2 /\ r1 = r2.
Proof.
  intros H1 H2 W1 W2 Heq.
  rewrite WriteVarInt_run in W1, W2. cbn [app] in W1, W2.
  injection W1 as <-. injection W2 as <-.
  pose proof (ReadVarInt_VarInt_bytes v1 r1 H1) as R1.
  pose proof (ReadVarInt_VarInt_bytes v2 r2 H2) as R2.
  rewrite Heq, R2 in R1. injection R1 as <- <-. auto.
Qed.

Lemma WriteVarInt_prefix_free_witness :
  0 <= 7 <= 2 ^ 64 - 1 /\ 0 <= 7 <= 2 ^ 64 - 1 /\
  WriteVarInt 7 [] = (Ok tt, [x07]) /\
  WriteVarInt 7 [] = (Ok tt, [x07]) /\
  [x07] ++ [xfd; x01] = [x07] ++ [xfd; x01] /\
  7 = 7 /\ [x07] = [x07] /\ [xfd; x01] = [xfd; x01].
Proof.
  assert (0 <= 7 <= 2 ^ 64 - 1) as H by lia.
  assert (WriteVarInt 7 [] = (Ok tt, [x07])) as W by reflexivity.
  assert ([x07] ++ [xfd; x01] = [x07] ++ [xfd; x01]) as E by reflexivity.
  split; [exact H|]. split; [exact H|]. split; [exact W|].
  split; [exact W|]. split; [exact E|].
  exact (WriteVarInt_prefix_free 7 7 [x07] [x07] [xfd; x01] [xfd; x01]
           H H W W E).
Defined.

(** ** VarString *)

Lemma WriteVarString_run (val : list byte) (w : io.Writer) :
  WriteVarString val w =
    (Ok tt, w ++ VarInt_bytes (len val mod 2 ^ 64) ++ val).
Proof.
  unfold WriteVarString, bind.
  rewrite WriteVarInt_run, io_Write_run, Z.eqb_refl.
  cbn [negb ret]. now rewrite <- app_assoc.
Qed.

(** X4. A string of at most [maxAlloc] bytes, written by
    [WriteVarString] and read back by [ReadVarString], comes out unchanged,
    and what follows it on the stream stays unread. *)
Theorem VarString_round_trip (val : list byte) (w : io.Writer)
    (rest : list byte) :
  len val <= maxAlloc ->
  exists enc : list byte,
    WriteVarString val w = (Ok tt, w ++ enc) /\
    ReadVarString (enc ++ rest) = (Ok val, rest).
Proof.
  intros Hl. pose proof (len_nonneg val) as H0.
  assert (maxAlloc = 2 ^ 48) as Hmax by reflexivity.
  exists (VarInt_bytes (len val) ++ val). split.
  - rewrite WriteVarString_run, Z.mod_small by lia. reflexivity.
  - rewrite <- app_assoc. now apply ReadVarString_app.
Qed.

Lemma VarString_round_trip_witness :
  len [x61; x62; x63; x64] <= maxAlloc /\
  exists enc : list byte,
    WriteVarString [x61; x62; x63; x64] [] = (Ok tt, [] ++ enc) /\
    ReadVarString (enc ++ [x2a]) = (Ok [x61; x62; x63; x64], [x2a]).
Proof.
  assert (len [x61; x62; x63; x64] <= maxAlloc) as H
    by (vm_compute; discriminate).
  split; [exact H|].
  exact (VarString_round_trip [x61; x62; x63; x64] [] [x2a] H).
Defined.

(** With fewer bytes on the stream than the declared length, and the
    slice of that length allocated: the error of the length check. *)
Lemma ReadVarString_short_body (n : Z) (body : list byte) :
  0 <= n <= maxAlloc ->
  len body < n ->
  ReadVarString (VarInt_bytes n ++ body) =
    (Err (Errorf "Could not read all string bytes" []), []).
Proof.
  intros Hn Hb.
  assert (maxAlloc = 2 ^ 48) as Hmax by reflexivity.
  unfold ReadVarString, bind.
  rewrite ReadVarInt_VarInt_bytes by lia.
  unfold make_bytes.
  destruct (Z.ltb_spec maxAlloc n) as [H1|H1]; [lia|]. cbn [ret].
  rewrite Read_fewer by exact Hb.
  destruct (Z.eqb_spec (len body) n); [lia|reflexivity].
Qed.

(** A declared length above the allocation limit: [make] panics before
    any byte of the string is read. *)
Lemma ReadVarString_length_over_limit_panics (n : Z) (rest : list byte) :
  maxAlloc < n <= 2 ^ 64 - 1 ->
  ReadVarString (VarInt_bytes n ++ rest) =
    (Panic "runtime error: makeslice: len out of range", rest).
Proof.
  intros Hn.
  assert (maxAlloc = 2 ^ 48) as Hmax by reflexivity.
  unfold ReadVarString, bind.
  rewrite ReadVarInt_VarInt_bytes by lia.
  unfold make_bytes.
  destruct (Z.ltb_spec maxAlloc n) as [H1|H1]; [reflexivity|lia].
Qed.

(** X5. When the stream ends before the declared length of a string is
    reached (any declared length, a uint64), [ReadVarString] never returns
    a string; and when it returns an error, the error is "Could not read
    all string bytes" and the whole stream has been consumed. *)
Theorem ReadVarString_truncated (n : Z) (body : list byte) :
  0 <= n <= 2 ^ 64 - 1 ->
  len body < n ->
  (forall (val : list byte) (r' : io.Reader),
     ReadVarString (VarInt_bytes n ++ body) <> (Ok val, r')) /\
  (forall (e : error) (r' : io.Reader),
     ReadVarString (VarInt_bytes n ++ body) = (Err e, r') ->
     e = Errorf "Could not read all string bytes" [] /\ r' = []).
Proof.
  intros Hn Hb.
  destruct (Z.le_gt_cases n maxAlloc) as [Hle|Hgt].
  - rewrite ReadVarString_short_body by (try exact Hb; lia).
    split; [discriminate|].
    intros e r' H. injection H as <- <-. now split.
  - rewrite ReadVarString_length_over_limit_panics by lia.
    split; [discriminate|]. intros e r' H. discriminate H.
Qed.

Lemma ReadVarString_truncated_witness :
  0 <= 5 <= 2 ^ 64 - 1 /\ len [x61; x62] < 5 /\
  (forall (val : list byte) (r' : io.Reader),
     ReadVarString (VarInt_bytes 5 ++ [x61; x62]) <> (Ok val, r')) /\
  (forall (e : error) (r' : io.Reader),
     ReadVarString (VarInt_bytes 5 ++ [x61; x62]) = (Err e, r') ->
     e = Errorf "Could not read all string bytes" [] /\ r' = []).
Proof.
  assert (0 <= 5 <= 2 ^ 64 - 1) as H1 by lia.
  assert (len [x61; x62] < 5) as H2 by (vm_compute; reflexivity).
  split; [exact H1|]. split; [exact H2|].
  exact (ReadVarString_truncated 5 [x61; x62] H1 H2).
Defined.

(** The truncated stream of the witness does return that error. *)
Example ReadVarString_truncated_sample :
  ReadVarString (VarInt_bytes 5 ++ [x61; x62]) =
    (Err (Errorf "Could not read all string bytes" []), []).
Proof. vm_compute. reflexivity. Qed.

Lemma Read_exact_inv (n : Z) (r r' b : list byte) (err : option error) :
  io.Read n r = (Ok (b, err), r') -> r = b ++ r'.
Proof.
  unfold io.Read. destruct r as [|x l].
  - intros H. injection H as <- _ <-. reflexivity.
  - intros H. injection H as <- _ <-. symmetry. apply firstn_skipn.
Qed.

(** X6. Whatever [ReadVarString] decodes successfully is at most
    [maxAlloc] bytes long, and the bytes it consumed are exactly the bytes
    [WriteVarString] writes for that string. *)
Theorem ReadVarString_accepts_only_written (r r' : io.Reader)
    (val : list byte) :
  ReadVarString r = (Ok val, r') ->
  len val <= maxAlloc /\
  exists enc : list byte,
    WriteVarString val [] = (Ok tt, enc) /\ r = enc ++ r'.
Proof.
  unfold ReadVarString, bind. intros H.
  destruct (ReadVarInt_outcome r) as [(n & r1 & E & Hn & Hr)|(e & r1 & E & _)];
    rewrite E in H; [|discriminate H].
  unfold make_bytes in H.
  destruct (Z.ltb_spec maxAlloc n) as [H1|H1]; [discriminate H|].
  cbn [ret] in H.
  destruct (io.Read n r1) as [[[b err]|e|msg] r2] eqn:ER;
    try discriminate H.
  destruct (Z.eqb_spec (len b) n) as [Hb|Hb]; [|discriminate H].
  cbn [negb ret] in H. injection H as <- <-.
  apply Read_exact_inv in ER. subst r1 n.
  split; [exact H1|].
  exists (VarInt_bytes (len b) ++ b). split.
  - rewrite WriteVarString_run, Z.mod_small by lia. reflexivity.
  - rewrite <- app_assoc. exact Hr.
Qed.

Lemma ReadVarString_accepts_only_written_witness :
  ReadVarString [x02; x61; x62; x2a] = (Ok [x61; x62], [x2a]) /\
  len [x61; x62] <= maxAlloc /\
  exists enc : list byte,
    WriteVarString [x61; x62] [] = (Ok tt, enc) /\
    [x02; x61; x62; x2a] = enc ++ [x2a].
Proof.
  assert (ReadVarString [x02; x61; x62; x2a] = (Ok [x61; x62], [x2a])) as H
    by (vm_compute; reflexivity).
  split; [exact H|].
  exact (ReadVarString_accepts_only_written _ _ _ H).
Defined.

(** ** Big integers, both ways *)

Lemma Z_of_byte_zero_inv (x : byte) : Z_of_byte x = 0 -> x = x00.
Proof.
  intros H. rewrite <- (byte_of_Z_of_byte x), H. reflexivity.
Qed.

Lemma strip_zeros_zero_value (S : Type) (b : list byte) (s : S) :
  big.SetBytes b = 0 ->
  strip_zeros b s =
    (Panic "runtime error: index out of range [0] with length 0", s).
Proof.
  induction b as [|x b IH]; intros Hz; [reflexivity|].
  cbn [strip_zeros]. destruct (Byte.eqb x x00) eqn:E.
  - apply Byte.byte_dec_bl in E. subst x.
    rewrite SetBytes_cons_zero in Hz. exact (IH Hz).
  - exfalso. apply Byte.eqb_false in E. apply E, Z_of_byte_zero_inv.
    change (x :: b) with ([x] ++ b) in Hz. rewrite SetBytes_app in Hz.
    change (big.SetBytes [x]) with (0 * 256 + Z_of_byte x) in Hz.
    pose proof (Z_of_byte_range x). pose proof (SetBytes_range b).
    pose proof (len_nonneg b).
    assert (0 < 256 ^ len b) by (apply Z.pow_pos_nonneg; lia).
    nia.
Qed.

(** X8. The three outcomes of [ReadBigInt256]: with fewer than 32 bytes
    on the stream, the error "Couldn't read 32 bytes for big.int"; with 32
    bytes whose value is zero, a panic; otherwise the big-endian value of
    the first 32 bytes, the rest of the stream left unread. *)
Theorem ReadBigInt256_outcomes (r : io.Reader) :
  ReadBigInt256 r =
    if len r <? 32 then
      (Err (Errorf "Couldn't read 32 bytes for big.int" []), [])
    else if big.SetBytes (firstn 32 r) =? 0 then
      (Panic "runtime error: index out of range [0] with length 0",
       skipn 32 r)
    else (Ok (big.SetBytes (firstn 32 r)), skipn 32 r).
Proof.
  destruct (Z.ltb_spec (len r) 32) as [Hs|Hs].
  - unfold ReadBigInt256, bind. rewrite Read_fewer by exact Hs.
    destruct (Z.eqb_spec (len r) 32); [lia|reflexivity].
  - assert (List.length (firstn 32 r) = 32%nat) as Hl
      by (rewrite length_firstn; unfold len in Hs; lia).
    rewrite <- (firstn_skipn 32 r) at 1.
    destruct (Z.eqb_spec (big.SetBytes (firstn 32 r)) 0) as [Hz|Hz].
    + unfold ReadBigInt256, bind.
      rewrite Read_app by (unfold len; lia).
      unfold len. rewrite Hl. cbn [Z.eqb Z.of_nat Pos.of_succ_nat Pos.succ
        Pos.eqb negb check ret].
      now rewrite strip_zeros_zero_value.
    + now apply ReadBigInt256_nonzero.
Qed.

(** X9. [WriteBigInt256] followed by [ReadBigInt256] returns
    [|v| mod 2^256] whenever that is not zero: a value with
    [0 < v < 2^256] comes back unchanged, the sign of a negative value is
    lost, and a value of 2^256 or more comes back reduced. *)
Theorem BigInt256_round_trip (v : Z) (w : io.Writer) (rest : list byte) :
  Z.abs v mod 2 ^ 256 <> 0 ->
  exists out : list byte,
    WriteBigInt256 v w = (Ok tt, w ++ out) /\
    ReadBigInt256 (out ++ rest) = (Ok (Z.abs v mod 2 ^ 256), rest) /\
    (0 < v < 2 ^ 256 -> Z.abs v mod 2 ^ 256 = v).
Proof.
  intros Hnz. rewrite WriteBigInt256_run.
  set (b := repeat x00 32 ++ big.Bytes v).
  assert (32 <= List.length b)%nat as Hb
    by (subst b; rewrite length_app, repeat_length; lia).
  destruct (SetBytes_last32 b Hb) as [Hl Hval].
  assert (big.SetBytes b = Z.abs v) as Hbv.
  { subst b. rewrite SetBytes_app, SetBytes_zeros, SetBytes_Bytes. lia. }
  rewrite Hbv in Hval.
  eexists. split; [reflexivity|]. split.
  - rewrite ReadBigInt256_nonzero; [now rewrite Hval|exact Hl|].
    now rewrite Hval.
  - intros Hv. rewrite Z.abs_eq by lia. apply Z.mod_small. lia.
Qed.

Lemma BigInt256_round_trip_witness :
  Z.abs (- (2 ^ 256 + 9)) mod 2 ^ 256 <> 0 /\
  exists out : list byte,
    WriteBigInt256 (- (2 ^ 256 + 9)) [] = (Ok tt, [] ++ out) /\
    ReadBigInt256 (out ++ [x2a]) =
      (Ok (Z.abs (- (2 ^ 256 + 9)) mod 2 ^ 256), [x2a]) /\
    (0 < - (2 ^ 256 + 9) < 2 ^ 256 ->
     Z.abs (- (2 ^ 256 + 9)) mod 2 ^ 256 = - (2 ^ 256 + 9)).
Proof.
  assert (Z.abs (- (2 ^ 256 + 9)) mod 2 ^ 256 <> 0) as H
    by (vm_compute; discriminate).
  split; [exact H|].
  exact (BigInt256_round_trip (- (2 ^ 256 + 9)) [] [x2a] H).
Defined.

(** ** Chain hashes, both ways *)

(** [ReadChainHash] succeeds exactly on a stream that starts with 32
    bytes; its result is never nil. *)
Lemma ReadChainHash_ok_iff (r r' : io.Reader) (o : option chainhash.Hash) :
  ReadChainHash r = (Ok o, r') <->
  exists h : chainhash.Hash,
    o = Some h /\ List.length h = 32%nat /\ r = h ++ r'.
Proof.
  split.
  - intros H. destruct (Z.lt_ge_cases (len r) 32) as [Hs|Hs].
    + rewrite ReadChainHash_short in H by exact Hs. discriminate H.
    + assert (List.length (firstn 32 r) = 32%nat) as Hl
        by (rewrite length_firstn; unfold len in Hs; lia).
      rewrite <- (firstn_skipn 32 r) in H.
      rewrite ReadChainHash_app in H by exact Hl.
      injection H as <- <-. exists (firstn 32 r).
      split; [reflexivity|]. split; [exact Hl|].
      symmetry. apply firstn_skipn.
  - intros (h & -> & Hl & ->). now apply ReadChainHash_app.
Qed.

Lemma hash_bytes_length (i : option chainhash.Hash) :
  hash_ref_ok i -> List.length (hash_bytes i) = 32%nat.
Proof. destruct i as [h|]; cbn; [trivial|reflexivity]. Qed.

Lemma read_list_ChainHash_refs (l : list (option chainhash.Hash))
    (acc : list (option chainhash.Hash)) (rest : list byte) :
  Forall hash_ref_ok l ->
  read_list ReadChainHash (List.length l) acc
    (List.concat (map hash_bytes l) ++ rest) =
    (Ok (acc ++ map (fun i => Some (hash_bytes i)) l), rest).
Proof.
  intros Hall. revert acc.
  induction Hall as [|i l Hi Hall IH]; intros acc.
  - cbn. now rewrite app_nil_r.
  - cbn [List.length read_list List.concat map]. unfold bind.
    rewrite <- app_assoc, ReadChainHash_app by now apply hash_bytes_length.
    rewrite IH, <- app_assoc. reflexivity.
Qed.

(** X10. A list of hash references that may hold nil entries, written
    by [WriteChainHashList] and read back by [ReadChainHashList]: the list
    comes back in order with every nil entry replaced by the null hash (32
    zero bytes); a nil entry does not come back as nil. *)
Theorem ChainHashList_round_trip_nil_as_null
    (l : list (option chainhash.Hash)) (w : io.Writer) (rest : list byte) :
  Forall hash_ref_ok l ->
  len l < 2 ^ 64 ->
  exists enc : list byte,
    WriteChainHashList l w = (Ok tt, w ++ enc) /\
    ReadChainHashList (enc ++ rest) =
      (Ok (map (fun i => match i with
                         | Some h => Some h
                         | None => nullHash
                         end) l), rest).
Proof.
  intros Hall Hlen. pose proof (len_nonneg l) as H0.
  exists (VarInt_bytes (len l) ++ List.concat (map hash_bytes l)).
  split.
  - unfold WriteChainHashList, bind.
    rewrite Z.mod_small by lia.
    rewrite WriteVarInt_run, WriteChainHashList_range_run.
    now rewrite <- app_assoc.
  - unfold ReadChainHashList, bind.
    rewrite <- app_assoc, ReadVarInt_VarInt_bytes by lia.
    unfold len. rewrite Nat2Z.id.
    rewrite read_list_ChainHash_refs by exact Hall.
    cbn [app]. f_equal. f_equal. apply map_ext. now intros [h|].
Qed.

Lemma ChainHashList_round_trip_nil_as_null_witness :
  Forall hash_ref_ok [Some (repeat x11 32); None] /\
  len [Some (repeat x11 32); None] < 2 ^ 64 /\
  exists enc : list byte,
    WriteChainHashList [Some (repeat x11 32); None] [] = (Ok tt, [] ++ enc) /\
    ReadChainHashList (enc ++ [x2a]) =
      (Ok (map (fun i => match i with
                         | Some h => Some h
                         | None => nullHash
                         end) [Some (repeat x11 32); None]), [x2a]).
Proof.
  assert (Forall hash_ref_ok [Some (repeat x11 32); None]) as H1
    by (repeat constructor).
  assert (len [Some (repeat x11 32); None] < 2 ^ 64) as H2
    by (vm_compute; reflexivity).
  split; [exact H1|]. split; [exact H2|].
  exact (ChainHashList_round_trip_nil_as_null _ [] [x2a] H1 H2).
Defined.

Lemma read_list_ChainHash_inv (n : nat) (acc l : list (option chainhash.Hash))
    (r r' : io.Reader) :
  read_list ReadChainHash n acc r = (Ok l, r') ->
  exists hs : list chainhash.Hash,
    l = acc ++ map Some hs /\ List.length hs = n /\
    Forall (fun h => List.length h = 32%nat) hs /\
    r = List.concat hs ++ r'.
Proof.
  revert acc r. induction n as [|n IH]; intros acc r H.
  - cbn in H. injection H as <- <-. exists [].
    split; [now rewrite app_nil_r|]. repeat split. constructor.
  - cbn [read_list] in H. unfold bind in H.
    destruct (ReadChainHash r) as [[o|e|msg] r1] eqn:E; try discriminate H.
    apply ReadChainHash_ok_iff in E. destruct E as (h & -> & Hl & ->).
    apply IH in H. destruct H as (hs & -> & Hn & Hall & ->).
    exists (h :: hs). split; [now rewrite <- app_assoc|].
    split; [cbn; now rewrite Hn|]. split; [now constructor|].
    cbn [List.concat]. now rewrite <- app_assoc.
Qed.

(** X11. Whatever [ReadChainHashList] decodes successfully holds only
    non-nil hashes of 32 bytes, and the bytes it consumed are exactly the
    bytes [WriteChainHashList] writes for that list. *)
Theorem ReadChainHashList_accepts_only_written (r r' : io.Reader)
    (l : list (option chainhash.Hash)) :
  ReadChainHashList r = (Ok l, r') ->
  Forall (fun i => exists h, i = Some h /\ List.length h = 32%nat) l /\
  exists enc : list byte,
    WriteChainHashList l [] = (Ok tt, enc) /\ r = enc ++ r'.
Proof.
  unfold ReadChainHashList, bind. intros H.
  destruct (ReadVarInt_outcome r) as [(n & r1 & E & Hn & Hr)|(e & r1 & E & _)];
    rewrite E in H; [|discriminate H].
  apply read_list_ChainHash_inv in H.
  destruct H as (hs & -> & Hlen & Hall & ->). cbn [app].
  split.
  - apply Forall_map. eapply Forall_impl; [|exact Hall].
    intros h Hh. now exists h.
  - assert (len (map Some hs) = n) as Hcount
      by (unfold len; rewrite length_map, Hlen; lia).
    exists (VarInt_bytes n ++ List.concat hs). split.
    + unfold WriteChainHashList, bind.
      rewrite Hcount, Z.mod_small by lia.
      rewrite WriteVarInt_run, WriteChainHashList_range_run.
      rewrite map_map. cbn [hash_bytes]. rewrite map_id. reflexivity.
    + rewrite <- app_assoc. exact Hr.
Qed.

Lemma ReadChainHashList_accepts_only_written_witness :
  ReadChainHashList ([x01] ++ repeat x22 32 ++ [x2a]) =
    (Ok [Some (repeat x22 32)], [x2a]) /\
  Forall (fun i => exists h, i = Some h /\ List.length h = 32%nat)
    [Some (repeat x22 32)] /\
  exists enc : list byte,
    WriteChainHashList [Some (repeat x22 32)] [] = (Ok tt, enc) /\
    [x01] ++ repeat x22 32 ++ [x2a] = enc ++ [x2a].
Proof.
  assert (ReadChainHashList ([x01] ++ repeat x22 32 ++ [x2a]) =
            (Ok [Some (repeat x22 32)], [x2a])) as H
    by (vm_compute; reflexivity).
  split; [exact H|].
  exact (ReadChainHashList_accepts_only_written _ _ _ H).
Defined.

Lemma read_list_ChainHash_short (hs : list chainhash.Hash) (n : nat)
    (acc : list (option chainhash.Hash)) (tail : list byte) :
  Forall (fun h => List.length h = 32%nat) hs ->
  (List.length hs < n)%nat ->
  len tail < 32 ->
  read_list ReadChainHash n acc (List.concat hs ++ tail) =
    (Err (Errorf "Couldn't read 32 bytes for chainhash" []), []).
Proof.
  intros Hall. revert n acc.
  induction Hall as [|h hs Hh Hall IH]; intros n acc Hn Ht.
  - destruct n as [|n]; [cbn in Hn; lia|].
    cbn [read_list List.concat app]. unfold bind.
    now rewrite ReadChainHash_short.
  - destruct n as [|n]; [cbn in Hn; lia|].
    cbn [read_list List.concat]. unfold bind.
    rewrite <- app_assoc, ReadChainHash_app by exact Hh.
    apply IH; [cbn in Hn; lia|exact Ht].
Qed.

(** X12. When the count announces more hashes than the stream holds
    (some complete hashes, then fewer than 32 bytes), [ReadChainHashList]
    returns the error "Couldn't read 32 bytes for chainhash" and has
    consumed the whole stream. *)
Theorem ReadChainHashList_truncated (count : Z) (hs : list chainhash.Hash)
    (tail : list byte) :
  Forall (fun h => List.length h = 32%nat) hs ->
  len hs < count <= 2 ^ 64 - 1 ->
  len tail < 32 ->
  ReadChainHashList (VarInt_bytes count ++ List.concat hs ++ tail) =
    (Err (Errorf "Couldn't read 32 bytes for chainhash" []), []).
Proof.
  intros Hall Hc Ht. pose proof (len_nonneg hs) as H0.
  unfold ReadChainHashList, bind.
  rewrite ReadVarInt_VarInt_bytes by lia.
  apply read_list_ChainHash_short; [exact Hall| |exact Ht].
  unfold len in Hc. lia.
Qed.

Lemma ReadChainHashList_truncated_witness :
  Forall (fun h => List.length h = 32%nat) [repeat x22 32] /\
  len [repeat x22 32] < 3 <= 2 ^ 64 - 1 /\
  len [x01; x02] < 32 /\
  ReadChainHashList
    (VarInt_bytes 3 ++ List.concat [repeat x22 32] ++ [x01; x02]) =
    (Err (Errorf "Couldn't read 32 bytes for chainhash" []), []).
Proof.
  assert (Forall (fun h => List.length h = 32%nat) [repeat x22 32]) as H1
    by (repeat constructor).
  assert (len [repeat x22 32] < 3 <= 2 ^ 64 - 1) as H2
    by (vm_compute; split; [reflexivity|discriminate]).
  assert (len [x01; x02] < 32) as H3 by (vm_compute; reflexivity).
  split; [exact H1|]. split; [exact H2|]. split; [exact H3|].
  exact (ReadChainHashList_truncated 3 [repeat x22 32] [x01; x02] H1 H2 H3).
Defined.

(** ** Transaction hash references, hash links, segwit data *)

Lemma ReadVarInt_ok_iff (r r' : io.Reader) (v : Z) :
  ReadVarInt r = (Ok v, r') <->
  0 <= v <= 2 ^ 64 - 1 /\ r = VarInt_bytes v ++ r'.
Proof.
  split.
  - intros H.
    destruct (ReadVarInt_outcome r)
      as [(v0 & r0 & E & Hv & Hr)|(e & r0 & E & _)];
      rewrite E in H; [|discriminate H].
    injection H as <- <-. now split.
  - intros [Hv ->]. now apply ReadVarInt_VarInt_bytes.
Qed.

Lemma ReadTransactionHashRef_ok_iff (r r' : io.Reader)
    (t : TransactionHashRef) :
  ReadTransactionHashRef r = (Ok t, r') <->
  TransactionHashRef_ok t /\ r = TransactionHashRef_bytes t ++ r'.
Proof.
  unfold ReadTransactionHashRef, TransactionHashRef_ok,
    TransactionHashRef_bytes, bind.
  split.
  - intros H.
    destruct (ReadVarInt r) as [[sc|e|msg] r1] eqn:E1; try discriminate H.
    destruct (ReadVarInt r1) as [[tc|e|msg] r2] eqn:E2; try discriminate H.
    cbn [ret] in H. injection H as <- <-. cbn [ShareCount TxCount].
    apply ReadVarInt_ok_iff in E1, E2.
    destruct E1 as [H1 ->], E2 as [H2 ->].
    split; [now split|]. now rewrite <- app_assoc.
  - intros [[H1 H2] ->]. rewrite <- app_assoc.
    rewrite ReadVarInt_VarInt_bytes by exact H1.
    rewrite ReadVarInt_VarInt_bytes by exact H2.
    destruct t; reflexivity.
Qed.

Lemma read_list_refs_iff (n : nat) (acc l : list TransactionHashRef)
    (r r' : io.Reader) :
  read_list ReadTransactionHashRef n acc r = (Ok l, r') <->
  exists ts : list TransactionHashRef,
    l = acc ++ ts /\ List.length ts = n /\
    Forall TransactionHashRef_ok ts /\
    r = List.concat (map TransactionHashRef_bytes ts) ++ r'.
Proof.
  revert acc l r. induction n as [|n IH]; intros acc l r.
  - cbn [read_list ret]. split.
    + intros H. injection H as <- <-. exists [].
      split; [now rewrite app_nil_r|]. repeat split. constructor.
    + intros (ts & -> & Hn & _ & ->).
      destruct ts; [|discriminate Hn]. cbn. now rewrite app_nil_r.
  - cbn [read_list]. unfold bind. split.
    + intros H.
      destruct (ReadTransactionHashRef r) as [[t|e|msg] r1] eqn:E;
        try discriminate H.
      apply ReadTransactionHashRef_ok_iff in E. destruct E as [Ht ->].
      apply IH in H. destruct H as (ts & -> & Hn & Hall & ->).
      exists (t :: ts). split; [now rewrite <- app_assoc|].
      split; [cbn; now rewrite Hn|]. split; [now constructor|].
      cbn [map List.concat]. now rewrite <- app_assoc.
    + intros (ts & -> & Hn & Hall & ->).
      destruct ts as [|t ts]; [discriminate Hn|].
      inversion Hall as [|? ? Ht Hall']; subst.
      cbn [map List.concat]. rewrite <- app_assoc.
      rewrite (proj2 (ReadTransactionHashRef_ok_iff _ _ t)
                 (conj Ht eq_refl)).
      apply IH. exists ts. split; [now rewrite <- app_assoc|].
      split; [now injection Hn|]. now split.
Qed.

Lemma ReadTransactionHashRefList_ok_layout (r r' : io.Reader)
    (l : list TransactionHashRef) :
  ReadTransactionHashRefList r = (Ok l, r') <->
  len l <= 2 ^ 64 - 1 /\
  Forall TransactionHashRef_ok l /\
  r = VarInt_bytes (len l) ++
      List.concat (map TransactionHashRef_bytes l) ++ r'.
Proof.
  unfold ReadTransactionHashRefList, bind. split.
  - intros H.
    destruct (ReadVarInt r) as [[n|e|msg] r1] eqn:E; try discriminate H.
    apply ReadVarInt_ok_iff in E. destruct E as [Hn ->].
    apply read_list_refs_iff in H.
    destruct H as (ts & -> & Hlen & Hall & ->). cbn [app].
    assert (len ts = n) as <- by (unfold len; rewrite Hlen; lia).
    split; [lia|]. now split.
  - intros (Hlen & Hall & ->). pose proof (len_nonneg l) as H0.
    rewrite ReadVarInt_VarInt_bytes by lia.
    apply read_list_refs_iff. exists l. split; [reflexivity|].
    split; [unfold len; symmetry; apply Nat2Z.id|]. now split.
Qed.

(** X13. [ReadTransactionHashRefList] returns the list [l] and leaves
    [r'] exactly when the stream is the canonical VarInt of the length of
    [l], then for each reference the canonical VarInts of its share count
    and its transaction count, then [r']; all counts are uint64 values. *)
Theorem ReadTransactionHashRefList_ok_iff (r r' : io.Reader)
    (l : list TransactionHashRef) :
  ReadTransactionHashRefList r = (Ok l, r') <->
  len l <= 2 ^ 64 - 1 /\
  Forall TransactionHashRef_ok l /\
  r = VarInt_bytes (len l) ++
      List.concat (map TransactionHashRef_bytes l) ++ r'.
Proof. apply ReadTransactionHashRefList_ok_layout. Qed.

(** ** Hash links *)

Lemma ReadHashLink_State_ok_iff (r r' : io.Reader) (s : list byte) :
  ReadHashLink_State r = (Ok s, r') <->
  List.length s = 32%nat /\ r = s ++ r'.
Proof.
  split.
  - intros H. destruct (Z.lt_ge_cases (len r) 32) as [Hs|Hs].
    + rewrite ReadHashLink_State_short in H by exact Hs. discriminate H.
    + assert (List.length (firstn 32 r) = 32%nat) as Hl
        by (rewrite length_firstn; unfold len in Hs; lia).
      assert (r = firstn 32 r ++ skipn 32 r) as Hr
        by (symmetry; apply firstn_skipn).
      remember (firstn 32 r) as p. remember (skipn 32 r) as q.
      rewrite Hr, ReadHashLink_State_app in H by exact Hl.
      injection H as <- <-. now split.
  - intros [Hl ->]. now apply ReadHashLink_State_app.
Qed.

(** X14. [ReadHashLink] returns the hash link [hl] and leaves [r']
    exactly when the stream is the 32 bytes of the state, then the
    canonical VarInt of the length, then [r']. *)
Theorem ReadHashLink_ok_iff (r r' : io.Reader) (hl : HashLink) :
  ReadHashLink r = (Ok hl, r') <->
  List.length (State hl) = 32%nat /\
  0 <= Length hl <= 2 ^ 64 - 1 /\
  r = State hl ++ VarInt_bytes (Length hl) ++ r'.
Proof.
  rewrite ReadHashLink_run. split.
  - intros H.
    destruct (ReadHashLink_State r) as [[s|e|msg] r1] eqn:E1;
      try discriminate H.
    destruct (ReadVarInt r1) as [[n|e|msg] r2] eqn:E2; try discriminate H.
    injection H as <- <-. cbn [State Length].
    apply ReadHashLink_State_ok_iff in E1. destruct E1 as [Hl ->].
    apply ReadVarInt_ok_iff in E2. destruct E2 as [Hn ->].
    now repeat split.
  - intros (Hl & Hn & ->).
    rewrite ReadHashLink_State_app by exact Hl.
    rewrite ReadVarInt_VarInt_bytes by exact Hn.
    destruct hl; reflexivity.
Qed.

(** ** Segwit data *)

Lemma WriteChainHash_run (i : option chainhash.Hash) (w : io.Writer) :
  hash_ref_ok i ->
  WriteChainHash i w = (Ok tt, w ++ hash_bytes i).
Proof.
  intros Hi. destruct i as [h|]; cbn [WriteChainHash nullHash hash_bytes];
    unfold bind, chainhash.CloneBytes; rewrite io_Write_run.
  - cbn in Hi. unfold len. rewrite Hi. reflexivity.
  - reflexivity.
Qed.

(** X15. The bytes written by [WriteChainHashList] for a merkle link and
    then by [WriteChainHash] for a root decode with [ReadSegwitData] to
    that link and that root (nil references replaced by the null hash),
    and what follows them stays unread. *)
Theorem SegwitData_round_trip (link : list (option chainhash.Hash))
    (root : option chainhash.Hash) (w : io.Writer) (rest : list byte) :
  Forall hash_ref_ok link ->
  hash_ref_ok root ->
  len link < 2 ^ 64 ->
  exists enc : list byte,
    (WriteChainHashList link ;; WriteChainHash root)%go w =
      (Ok tt, w ++ enc) /\
    ReadSegwitData (enc ++ rest) =
      (Ok {| TXIDMerkleLink := map (fun i => Some (hash_bytes i)) link;
             WTXIDMerkleRoot := Some (hash_bytes root) |}, rest).
Proof.
  intros Hlink Hroot Hlen. pose proof (len_nonneg link) as H0.
  exists ((VarInt_bytes (len link) ++ List.concat (map hash_bytes link))
          ++ hash_bytes root).
  split.
  - unfold WriteChainHashList, bind.
    rewrite Z.mod_small by lia.
    rewrite WriteVarInt_run, WriteChainHashList_range_run.
    rewrite WriteChainHash_run by exact Hroot.
    now rewrite <- !app_assoc.
  - unfold ReadSegwitData, ReadChainHashList, bind.
    rewrite <- !app_assoc, ReadVarInt_VarInt_bytes by lia.
    unfold len. rewrite Nat2Z.id.
    rewrite read_list_ChainHash_refs by exact Hlink.
    rewrite ReadChainHash_app by now apply hash_bytes_length.
    reflexivity.
Qed.

Lemma SegwitData_round_trip_witness :
  Forall hash_ref_ok [Some (repeat x11 32); None] /\
  hash_ref_ok (Some (repeat x44 32)) /\
  len [Some (repeat x11 32); None] < 2 ^ 64 /\
  exists enc : list byte,
    (WriteChainHashList [Some (repeat x11 32); None] ;;
     WriteChainHash (Some (repeat x44 32)))%go [] = (Ok tt, [] ++ enc) /\
    ReadSegwitData (enc ++ [x2a]) =
      (Ok {| TXIDMerkleLink :=
               map (fun i => Some (hash_bytes i))
                 [Some (repeat x11 32); None];
             WTXIDMerkleRoot := Some (hash_bytes (Some (repeat x44 32))) |},
       [x2a]).
Proof.
  assert (Forall hash_ref_ok [Some (repeat x11 32); None]) as H1
    by (repeat constructor).
  assert (hash_ref_ok (Some (repeat x44 32))) as H2 by reflexivity.
  assert (len [Some (repeat x11 32); None] < 2 ^ 64) as H3
    by (vm_compute; reflexivity).
  split; [exact H1|]. split; [exact H2|]. split; [exact H3|].
  exact (SegwitData_round_trip _ _ [] [x2a] H1 H2 H3).
Defined.

(** ** Share data *)

Lemma decode_int8_PutUint (s : Z) :
  - 2 ^ 7 <= s < 2 ^ 7 ->
  binary.decode binary.int8 (binary.PutUint 1 s) = s.
Proof.
  intros Hs. cbn [binary.decode]. rewrite Uint_PutUint.
  change (2 ^ (8 * Z.of_nat 1)) with 256.
  destruct (Z.lt_ge_cases s 0) as [Hneg|Hpos].
  - replace (s mod 256) with (s + 256)
      by (apply (Z.mod_unique s 256 (-1) (s + 256)); lia).
    destruct (Z.ltb_spec (s + 256) 128); lia.
  - rewrite Z.mod_small by lia.
    destruct (Z.ltb_spec s 128); lia.
Qed.

Lemma binary_Read_PutUint (t : binary.kind) (old v : Z) (rest : list byte) :
  binary.Read t old (binary.PutUint (binary.size t) v ++ rest) =
    (Ok (binary.decode t (binary.PutUint (binary.size t) v), None), rest).
Proof. apply binary_Read_app, PutUint_length. Qed.

Lemma ReadShareData_decodes_bytes (sd : ShareData) (rest : list byte) :
  ShareData_ok sd ->
  ReadShareData (ShareData_bytes sd ++ rest) =
    (Ok {| PreviousShareHash := Some (hash_bytes (PreviousShareHash sd));
           CoinBase := CoinBase sd;
           Nonce := Nonce sd;
           PubKeyHash := PubKeyHash sd;
           PubKeyHashVersion := PubKeyHashVersion sd;
           Subsidy := Subsidy sd;
           Donation := Donation sd;
           StaleInfo := StaleInfo sd;
           DesiredVersion := DesiredVersion sd |}, rest).
Proof.
  intros (Hh & Hcb & Hn & Hpk & Hver & Hsub & Hdon & Hst & Hdv).
  unfold ShareData_bytes, ReadShareData, bind.
  rewrite <- !app_assoc.
  rewrite ReadChainHash_app by now apply hash_bytes_length.
  rewrite ReadVarString_app by exact Hcb.
  rewrite (binary_Read_PutUint binary.uint32). cbn [check ret].
  rewrite ReadShareData_PubKeyHash_app by exact Hpk.
  rewrite (binary_Read_PutUint binary.uint8). cbn [check ret].
  rewrite (binary_Read_PutUint binary.uint64). cbn [check ret].
  rewrite (binary_Read_PutUint binary.uint16). cbn [check ret].
  rewrite (binary_Read_PutUint binary.int8). cbn [check ret].
  rewrite ReadVarInt_VarInt_bytes by exact Hdv.
  rewrite decode_int8_PutUint by exact Hst.
  cbn [binary.decode binary.size].
  rewrite !Uint_PutUint_small by (cbn; lia).
  reflexivity.
Qed.

(** X16. [ReadShareData] decodes a ShareData from its wire layout, field
    by field: 32 bytes of hash, the coinbase as a VarString, the nonce on 4
    little-endian bytes, 20 bytes of pubKeyHash, 1 byte of version, the
    subsidy on 8 bytes, the donation on 2 bytes, the stale info as one
    signed byte, the desired version as a VarInt; what follows stays
    unread. *)
Theorem ReadShareData_decodes (sd : ShareData) (rest : list byte) :
  ShareData_ok sd ->
  ReadShareData (ShareData_bytes sd ++ rest) =
    (Ok {| PreviousShareHash := Some (hash_bytes (PreviousShareHash sd));
           CoinBase := CoinBase sd;
           Nonce := Nonce sd;
           PubKeyHash := PubKeyHash sd;
           PubKeyHashVersion := PubKeyHashVersion sd;
           Subsidy := Subsidy sd;
           Donation := Donation sd;
           StaleInfo := StaleInfo sd;
           DesiredVersion := DesiredVersion sd |}, rest).
Proof. now apply ReadShareData_decodes_bytes. Qed.

Lemma ReadShareData_decodes_witness :
  ShareData_ok sample_ShareData /\
  ReadShareData (ShareData_bytes sample_ShareData ++ [x2a]) =
    (Ok {| PreviousShareHash :=
             Some (hash_bytes (PreviousShareHash sample_ShareData));
           CoinBase := CoinBase sample_ShareData;
           Nonce := Nonce sample_ShareData;
           PubKeyHash := PubKeyHash sample_ShareData;
           PubKeyHashVersion := PubKeyHashVersion sample_ShareData;
           Subsidy := Subsidy sample_ShareData;
           Donation := Donation sample_ShareData;
           StaleInfo := StaleInfo sample_ShareData;
           DesiredVersion := DesiredVersion sample_ShareData |}, [x2a]).
Proof.
  assert (ShareData_ok sample_ShareData) as H
    by (vm_compute; repeat split; try reflexivity; discriminate).
  split; [exact H|].
  exact (ReadShareData_decodes sample_ShareData [x2a] H).
Defined.

(** ** Small block headers *)

Lemma binary_Write_int32_run (x : Z) (w : io.Writer) :
  binary.Write_int32 x w = (Ok None, w ++ binary.PutUint 4 x).
Proof. reflexivity. Qed.

Lemma binary_Read_int32_app (old : Z) (p rest : list byte) :
  List.length p = 4%nat ->
  binary.Read_int32 old (p ++ rest) = (Ok (binary.decode_int32 p, None), rest).
Proof.
  intros Hp. unfold binary.Read_int32, bind.
  rewrite ReadFull_app by (unfold len; now rewrite Hp).
  reflexivity.
Qed.

Lemma binary_Read_int32_short (old : Z) (r : list byte) :
  (List.length r < 4)%nat ->
  binary.Read_int32 old r =
    (Ok (old, Some (match r with [] => EOF | _ :: _ => ErrUnexpectedEOF end)),
     []).
Proof.
  intros Hr. unfold binary.Read_int32, bind.
  rewrite ReadFull_short by (unfold len; lia).
  reflexivity.
Qed.

Lemma decode_int32_PutUint (v : Z) :
  - 2 ^ 31 <= v < 2 ^ 31 ->
  binary.decode_int32 (binary.PutUint 4 v) = v.
Proof.
  intros Hv. unfold binary.decode_int32. rewrite Uint_PutUint.
  change (2 ^ (8 * Z.of_nat 4)) with (2 ^ 32).
  destruct (Z.lt_ge_cases v 0) as [Hneg|Hpos].
  - replace (v mod 2 ^ 32) with (v + 2 ^ 32)
      by (apply (Z.mod_unique v (2 ^ 32) (-1) (v + 2 ^ 32)); lia).
    destruct (Z.ltb_spec (v + 2 ^ 32) (2 ^ 31)); lia.
  - rewrite Z.mod_small by lia.
    destruct (Z.ltb_spec v (2 ^ 31)); lia.
Qed.

Lemma WriteSmallBlockHeader_run (sbh : Header.SmallBlockHeader)
    (w : io.Writer) :
  hash_ref_ok (Header.PreviousBlock sbh) ->
  WriteSmallBlockHeader sbh w = (Ok tt, w ++ Header_bytes sbh).
Proof.
  intros Hh. unfold WriteSmallBlockHeader, Header_bytes, bind.
  rewrite binary_Write_int32_run. cbn [check ret].
  rewrite WriteChainHash_run by exact Hh.
  rewrite !binary_Write_run. cbn [check ret binary.size].
  rewrite binary_Write_run. cbn [check ret binary.size].
  rewrite binary_Write_run. cbn [check ret binary.size].
  now rewrite <- !app_assoc.
Qed.

Lemma Header_bytes_length (sbh : Header.SmallBlockHeader) :
  hash_ref_ok (Header.PreviousBlock sbh) ->
  List.length (Header_bytes sbh) = 48%nat.
Proof.
  intros Hh. unfold Header_bytes.
  rewrite !length_app, !PutUint_length, hash_bytes_length by exact Hh.
  reflexivity.
Qed.

(** X17. A small block header whose fields are in the range of their
    types, written by [WriteSmallBlockHeader], takes exactly 48 bytes, and
    [ReadSmallBlockHeader] reads the same header back (a negative version
    included); a nil previous block comes back as the null hash. *)
Theorem SmallBlockHeader_round_trip (sbh : Header.SmallBlockHeader)
    (w : io.Writer) (rest : list byte) :
  Header_ok sbh ->
  exists enc : list byte,
    WriteSmallBlockHeader sbh w = (Ok tt, w ++ enc) /\
    List.length enc = 48%nat /\
    ReadSmallBlockHeader (enc ++ rest) =
      (Ok {| Header.Version := Header.Version sbh;
             Header.PreviousBlock :=
               match Header.PreviousBlock sbh with
               | Some h => Some h
               | None => nullHash
               end;
             Header.Timestamp := Header.Timestamp sbh;
             Header.Bits := Header.Bits sbh;
             Header.Nonce := Header.Nonce sbh |}, rest).
Proof.
  intros (Hv & Hh & Ht & Hb & Hn).
  exists (Header_bytes sbh).
  split; [now apply WriteSmallBlockHeader_run|].
  split; [now apply Header_bytes_length|].
  unfold Header_bytes, ReadSmallBlockHeader, bind.
  rewrite <- !app_assoc.
  rewrite binary_Read_int32_app by apply PutUint_length. cbn [check ret].
  rewrite ReadChainHash_app by now apply hash_bytes_length.
  rewrite (binary_Read_PutUint binary.uint32). cbn [check ret].
  rewrite (binary_Read_PutUint binary.uint32). cbn [check ret].
  rewrite (binary_Read_PutUint binary.uint32). cbn [check ret].
  rewrite decode_int32_PutUint by exact Hv.
  cbn [binary.decode binary.size].
  rewrite !Uint_PutUint_small by (cbn; lia).
  destruct (Header.PreviousBlock sbh); reflexivity.
Qed.

Lemma SmallBlockHeader_round_trip_witness :
  let sbh := {| Header.Version := -3;
                Header.PreviousBlock := None;
                Header.Timestamp := 1500000000;
                Header.Bits := 0x1d00ffff;
                Header.Nonce := 42 |} in
  Header_ok sbh /\
  exists enc : list byte,
    WriteSmallBlockHeader sbh [] = (Ok tt, [] ++ enc) /\
    List.length enc = 48%nat /\
    ReadSmallBlockHeader (enc ++ [x2a]) =
      (Ok {| Header.Version := Header.Version sbh;
             Header.PreviousBlock :=
               match Header.PreviousBlock sbh with
               | Some h => Some h
               | None => nullHash
               end;
             Header.Timestamp := Header.Timestamp sbh;
             Header.Bits := Header.Bits sbh;
             Header.Nonce := Header.Nonce sbh |}, [x2a]).
Proof.
  intros sbh.
  assert (Header_ok sbh) as H
    by (vm_compute; repeat split; try reflexivity; discriminate).
  split; [exact H|].
  exact (SmallBlockHeader_round_trip sbh [] [x2a] H).
Defined.

(** [ReadSmallBlockHeader] on a stream of at least 48 bytes. *)
Lemma ReadSmallBlockHeader_app (v h t b n rest : list byte) :
  List.length v = 4%nat -> List.length h = 32%nat ->
  List.length t = 4%nat -> List.length b = 4%nat ->
  List.length n = 4%nat ->
  ReadSmallBlockHeader (v ++ h ++ t ++ b ++ n ++ rest) =
    (Ok {| Header.Version := binary.decode_int32 v;
           Header.PreviousBlock := Some h;
           Header.Timestamp := binary.Uint t;
           Header.Bits := binary.Uint b;
           Header.Nonce := binary.Uint n |}, rest).
Proof.
  intros Hv Hh Ht Hb Hn. unfold ReadSmallBlockHeader, bind.
  rewrite binary_Read_int32_app by exact Hv. cbn [check ret].
  rewrite ReadChainHash_app by exact Hh.
  rewrite binary_Read_app by exact Ht. cbn [check ret].
  rewrite binary_Read_app by exact Hb. cbn [check ret].
  rewrite binary_Read_app by exact Hn. cbn [check ret].
  reflexivity.
Qed.

Lemma split_at (n : nat) (r : list byte) :
  (n <= List.length r)%nat ->
  exists p q, r = p ++ q /\ List.length p = n.
Proof.
  intros H. exists (firstn n r), (skipn n r).
  split; [symmetry; apply firstn_skipn|].
  rewrite length_firstn. lia.
Qed.

Lemma ReadSmallBlockHeader_short (r : io.Reader) :
  (List.length r < 48)%nat ->
  exists e, ReadSmallBlockHeader r = (Err e, []) /\
            spec_error_kind e = TruncatedInput.
Proof.
  intros Hr. unfold ReadSmallBlockHeader, bind.
  destruct (Nat.lt_ge_cases (List.length r) 4) as [H1|H1].
  { rewrite binary_Read_int32_short by exact H1. cbn [check fail].
    eexists. split; [reflexivity|]. destruct r; reflexivity. }
  destruct (split_at 4 r H1) as (v & r1 & -> & Hv).
  rewrite length_app, Hv in Hr.
  rewrite binary_Read_int32_app by exact Hv. cbn [check ret].
  destruct (Nat.lt_ge_cases (List.length r1) 32) as [H2|H2].
  { rewrite ReadChainHash_short by (unfold len; lia).
    eexists. split; reflexivity. }
  destruct (split_at 32 r1 H2) as (h & r2 & -> & Hh).
  rewrite length_app, Hh in Hr.
  rewrite ReadChainHash_app by exact Hh.
  destruct (Nat.lt_ge_cases (List.length r2) 4) as [H3|H3].
  { rewrite binary_Read_short by exact H3. cbn [check fail].
    eexists. split; [reflexivity|]. destruct r2; reflexivity. }
  destruct (split_at 4 r2 H3) as (t & r3 & -> & Ht).
  rewrite length_app, Ht in Hr.
  rewrite binary_Read_app by exact Ht. cbn [check ret].
  destruct (Nat.lt_ge_cases (List.length r3) 4) as [H4|H4].
  { rewrite binary_Read_short by exact H4. cbn [check fail].
    eexists. split; [reflexivity|]. destruct r3; reflexivity. }
  destruct (split_at 4 r3 H4) as (b & r4 & -> & Hb).
  rewrite length_app, Hb in Hr.
  rewrite binary_Read_app by exact Hb. cbn [check ret].
  rewrite binary_Read_short by (cbn [binary.size]; lia). cbn [check fail].
  eexists. split; [reflexivity|]. destruct r4; reflexivity.
Qed.

Lemma PutUint_Uint_len (n : nat) (l : list byte) :
  List.length l = n -> binary.PutUint n (binary.Uint l) = l.
Proof. intros <-. apply PutUint_Uint. Qed.

Lemma PutUint_mod (n : nat) (x : Z) :
  binary.PutUint n (x mod 2 ^ (8 * Z.of_nat n)) = binary.PutUint n x.
Proof.
  rewrite <- Uint_PutUint.
  rewrite <- (PutUint_length n x) at 1.
  apply PutUint_Uint.
Qed.

Lemma PutUint_decode_int32 (v : list byte) :
  List.length v = 4%nat ->
  binary.PutUint 4 (binary.decode_int32 v) = v.
Proof.
  intros Hv. unfold binary.decode_int32.
  destruct (Z.ltb_spec (binary.Uint v) (2 ^ 31)).
  - rewrite <- Hv. apply PutUint_Uint.
  - rewrite <- PutUint_mod. change (2 ^ (8 * Z.of_nat 4)) with (2 ^ 32).
    replace ((binary.Uint v - 2 ^ 32) mod 2 ^ 32)
      with (binary.Uint v mod 2 ^ 32)
      by (rewrite <- (Z.mod_add (binary.Uint v - 2 ^ 32) 1 (2 ^ 32)) by lia;
          f_equal; lia).
    change (2 ^ 32) with (2 ^ (8 * Z.of_nat 4)). rewrite PutUint_mod.
    rewrite <- Hv. apply PutUint_Uint.
Qed.

(** X18. [ReadSmallBlockHeader] fails with an error of the kind
    TruncatedInput on every stream of fewer than 48 bytes, having consumed
    all of it; on every stream of 48 bytes or more it succeeds, consumes
    exactly 48 bytes, and the header it returns has these 48 bytes as its
    wire layout. *)
Theorem ReadSmallBlockHeader_needs_48_bytes (r : io.Reader) :
  (len r < 48 ->
   exists e, ReadSmallBlockHeader r = (Err e, []) /\
             spec_error_kind e = TruncatedInput) /\
  (48 <= len r ->
   exists sbh, ReadSmallBlockHeader r = (Ok sbh, skipn 48 r) /\
               Header_ok sbh /\
               firstn 48 r = Header_bytes sbh).
Proof.
  split.
  - intros H. apply ReadSmallBlockHeader_short. unfold len in H. lia.
  - intros H. unfold len in H.
    destruct (split_at 48 r ltac:(lia)) as (p & rest & -> & Hp).
    assert (firstn 48 (p ++ rest) = p) as ->
      by (rewrite <- Hp, firstn_app, Nat.sub_diag, firstn_all; cbn;
          apply app_nil_r).
    assert (skipn 48 (p ++ rest) = rest) as ->
      by (rewrite <- Hp, skipn_app, Nat.sub_diag, skipn_all; reflexivity).
    destruct (split_at 4 p ltac:(lia)) as (v & p1 & -> & Hv).
    rewrite length_app, Hv in Hp.
    destruct (split_at 32 p1 ltac:(lia)) as (h & p2 & -> & Hh).
    rewrite length_app, Hh in Hp.
    destruct (split_at 4 p2 ltac:(lia)) as (t & p3 & -> & Ht).
    rewrite length_app, Ht in Hp.
    destruct (split_at 4 p3 ltac:(lia)) as (b & n & -> & Hb).
    rewrite length_app, Hb in Hp.
    assert (List.length n = 4%nat) as Hn by lia.
    eexists. split.
    + rewrite <- !app_assoc. now apply ReadSmallBlockHeader_app.
    + unfold Header_ok, Header_bytes.
      cbn [Header.Version Header.PreviousBlock Header.Timestamp Header.Bits
           Header.Nonce hash_bytes hash_ref_ok].
      pose proof (Uint_range v) as Rv. pose proof (Uint_range t) as Rt.
      pose proof (Uint_range b) as Rb. pose proof (Uint_range n) as Rn.
      unfold len in *. rewrite Hv in Rv. rewrite Ht in Rt.
      rewrite Hb in Rb. rewrite Hn in Rn.
      change (2 ^ (8 * Z.of_nat 4)) with (2 ^ 32) in *.
      split.
      { repeat split; try lia; try exact Hh;
          unfold binary.decode_int32;
          destruct (Z.ltb_spec (binary.Uint v) (2 ^ 31)); lia. }
      rewrite PutUint_decode_int32 by exact Hv.
      now rewrite !PutUint_Uint_len by assumption.
Qed.

Lemma ReadSmallBlockHeader_needs_48_bytes_witness :
  (len (repeat x01 47) < 48 /\
   exists e, ReadSmallBlockHeader (repeat x01 47) = (Err e, []) /\
             spec_error_kind e = TruncatedInput) /\
  (48 <= len (repeat x01 50) /\
   exists sbh,
     ReadSmallBlockHeader (repeat x01 50) =
       (Ok sbh, skipn 48 (repeat x01 50)) /\
     Header_ok sbh /\
     firstn 48 (repeat x01 50) = Header_bytes sbh).
Proof.
  assert (len (repeat x01 47) < 48) as H1 by (vm_compute; reflexivity).
  assert (48 <= len (repeat x01 50)) as H2 by (vm_compute; discriminate).
  split.
  - split; [exact H1|].
    exact (proj1 (ReadSmallBlockHeader_needs_48_bytes (repeat x01 47)) H1).
  - split; [exact H2|].
    exact (proj2 (ReadSmallBlockHeader_needs_48_bytes (repeat x01 50)) H2).
Defined.

(** ** IP addresses *)

Lemma copy_16_full (src : list byte) :
  List.length src = 16%nat -> copy (repeat x00 16) src = src.
Proof.
  intros Hl. unfold copy. rewrite repeat_length, Hl.
  rewrite <- Hl at 1. rewrite firstn_all. cbn [skipn]. apply app_nil_r.
Qed.

Lemma To16_other (val : net.IP) :
  List.length val <> 4%nat ->
  net.To16 val = if len val =? 16 then val else [].
Proof.
  intros H4.
  destruct val as [|a [|b [|c [|d [|e val]]]]]; try reflexivity.
  now elim H4.
Qed.

(** X19. [WriteIPAddr] always returns a nil error and writes exactly 16
    bytes, which [ReadIPAddr] reads back: a 16-byte address as it is, a
    4-byte address in its IPv4-mapped form (ten zero bytes, 0xff 0xff, the
    four bytes), and an address of any other length as 16 zero bytes. *)
Theorem IPAddr_round_trip (val : net.IP) (w : io.Writer) (rest : list byte) :
  exists out : list byte,
    WriteIPAddr val w = (Ok tt, w ++ out) /\
    List.length out = 16%nat /\
    ReadIPAddr (out ++ rest) = (Ok out, rest) /\
    (List.length val = 16%nat -> out = val) /\
    (forall a b c d, val = [a; b; c; d] ->
       out = repeat x00 10 ++ [xff; xff; a; b; c; d]) /\
    (List.length val <> 4%nat -> List.length val <> 16%nat ->
       out = repeat x00 16).
Proof.
  assert (forall out, List.length out = 16%nat ->
            copy (repeat x00 16) (net.To16 val) = out ->
            WriteIPAddr val w = (Ok tt, w ++ out) /\
            List.length out = 16%nat /\
            ReadIPAddr (out ++ rest) = (Ok out, rest)) as Hrun.
  { intros out Hl Hc.
    split; [|split; [exact Hl|now apply ReadIPAddr_app]].
    unfold WriteIPAddr, bind.
    rewrite Hc, io_Write_run. unfold len. rewrite Hl. reflexivity. }
  destruct (Nat.eq_dec (List.length val) 4) as [H4|H4].
  - destruct val as [|a [|b [|c [|d [|e val]]]]]; try discriminate H4.
    exists (repeat x00 10 ++ [xff; xff; a; b; c; d]).
    destruct (Hrun (repeat x00 10 ++ [xff; xff; a; b; c; d])
                eq_refl eq_refl) as (H1 & H2 & H3).
    repeat split; try assumption.
    + discriminate.
    + intros a' b' c' d' E. now injection E as <- <- <- <-.
    + intros Hn. now elim Hn.
  - destruct (Nat.eq_dec (List.length val) 16) as [H16|H16].
    + exists val.
      assert (copy (repeat x00 16) (net.To16 val) = val) as Hc.
      { rewrite To16_other by exact H4. unfold len. rewrite H16.
        now apply copy_16_full. }
      destruct (Hrun val H16 Hc) as (H1 & H2 & H3).
      repeat split; try assumption.
      * intros a b c d ->. discriminate H16.
      * intros _ Hn. now elim Hn.
    + exists (repeat x00 16).
      assert (copy (repeat x00 16) (net.To16 val) = repeat x00 16) as Hc.
      { rewrite To16_other by exact H4.
        destruct (Z.eqb_spec (len val) 16) as [E|E]; [|reflexivity].
        unfold len in E. lia. }
      destruct (Hrun (repeat x00 16) eq_refl Hc) as (H1 & H2 & H3).
      repeat split; try assumption.
      * intros Hl. now elim H16.
      * intros a b c d ->. now elim H4.
Qed.

(** ** Panics *)

Lemma never_panics_bind {A B : Type} (m : M io.Reader A)
    (k : A -> M io.Reader B) :
  never_panics m -> (forall a, never_panics (k a)) ->
  never_panics (bind m k).
Proof.
  intros Hm Hk r r' msg. unfold bind.
  destruct (m r) as [[a|e|msg'] r1] eqn:E.
  - apply Hk.
  - discriminate.
  - now elim (Hm r r1 msg').
Qed.

Lemma never_panics_ret {A : Type} (a : A) : never_panics (ret a).
Proof. intros r r' msg. discriminate. Qed.

Lemma never_panics_fail {A : Type} (e : error) :
  never_panics (@fail io.Reader A e).
Proof. intros r r' msg. discriminate. Qed.

Lemma never_panics_check (err : option error) : never_panics (check err).
Proof. destruct err; [apply never_panics_fail|apply never_panics_ret]. Qed.

Lemma never_panics_Read (n : Z) : never_panics (io.Read n).
Proof. intros r r' msg. unfold io.Read. destruct r; discriminate. Qed.

Lemma never_panics_binary_Read (t : binary.kind) (old : Z) :
  never_panics (binary.Read t old).
Proof.
  intros r r' msg.
  destruct (binary_Read_cases t old r) as [(v & r1 & E)|(e & r1 & E)];
    rewrite E; discriminate.
Qed.

Lemma never_panics_Read_int32 (old : Z) : never_panics (binary.Read_int32 old).
Proof.
  intros r r' msg.
  destruct (Nat.lt_ge_cases (List.length r) 4) as [Hs|Hs].
  - rewrite binary_Read_int32_short by exact Hs. discriminate.
  - destruct (split_at 4 r Hs) as (p & q & -> & Hp).
    rewrite binary_Read_int32_app by exact Hp. discriminate.
Qed.

Lemma never_panics_ReadVarInt : never_panics ReadVarInt.
Proof.
  intros r r' msg.
  destruct (ReadVarInt_outcome r) as [(v & r1 & E & _)|(e & r1 & E & _)];
    rewrite E; discriminate.
Qed.

Lemma never_panics_read_list {A : Type} (body : M io.Reader A) (n : nat)
    (acc : list A) :
  never_panics body -> never_panics (read_list body n acc).
Proof.
  intros Hb. revert acc. induction n as [|n IH]; intros acc.
  - apply never_panics_ret.
  - cbn [read_list]. apply never_panics_bind; [exact Hb|].
    intros a. apply IH.
Qed.

Ltac no_panic_with known :=
  repeat first
    [ known
    | apply never_panics_ret
    | apply never_panics_fail
    | apply never_panics_check
    | apply never_panics_Read
    | apply never_panics_binary_Read
    | apply never_panics_Read_int32
    | apply never_panics_ReadVarInt
    | apply never_panics_read_list
    | apply never_panics_bind
    | match goal with
      | |- never_panics (if ?b then _ else _) => destruct b
      | |- forall _ : _ * _, never_panics _ => intros [? ?]
      | |- forall _, never_panics _ => intro
      end ].

Lemma never_panics_ReadChainHash : never_panics ReadChainHash.
Proof.
  unfold ReadChainHash, chainhash.NewHash. no_panic_with ltac:(idtac; fail).
Qed.

Ltac no_panic :=
  no_panic_with ltac:(apply never_panics_ReadChainHash).

Lemma never_panics_ReadChainHashList : never_panics ReadChainHashList.
Proof.
  unfold ReadChainHashList. no_panic.
Qed.

(** X20. No stream makes [ReadVarInt], [ReadIPAddr], [ReadChainHash],
    [ReadChainHashList], [ReadSegwitData], [ReadTransactionHashRef],
    [ReadTransactionHashRefList], [ReadHashLink] or [ReadSmallBlockHeader]
    panic. *)
Theorem decoders_never_panic :
  never_panics ReadVarInt /\
  never_panics ReadIPAddr /\
  never_panics ReadChainHash /\
  never_panics ReadChainHashList /\
  never_panics ReadSegwitData /\
  never_panics ReadTransactionHashRef /\
  never_panics ReadTransactionHashRefList /\
  never_panics ReadHashLink /\
  never_panics ReadSmallBlockHeader.
Proof.
  repeat apply conj.
  - apply never_panics_ReadVarInt.
  - unfold ReadIPAddr. no_panic.
  - apply never_panics_ReadChainHash.
  - apply never_panics_ReadChainHashList.
  - unfold ReadSegwitData, ReadChainHashList. no_panic.
  - unfold ReadTransactionHashRef. no_panic.
  - unfold ReadTransactionHashRefList. no_panic.
  - unfold ReadHashLink, ReadHashLink_State. no_panic.
  - unfold ReadSmallBlockHeader. no_panic.
Qed.

Lemma bind_panic_inv {A B : Type} (m : M io.Reader A)
    (k : A -> M io.Reader B) (r r' : io.Reader) (msg : string) :
  bind m k r = (Panic msg, r') ->
  m r = (Panic msg, r') \/
  exists a r1, m r = (Ok a, r1) /\ k a r1 = (Panic msg, r').
Proof.
  unfold bind. destruct (m r) as [[a|e|msg'] r1].
  - intros H. right. exists a, r1. split; [reflexivity|exact H].
  - discriminate.
  - intros H. left. injection H as -> ->. reflexivity.
Qed.

Lemma never_panics_elim {A : Type} (m : M io.Reader A) (r r' : io.Reader)
    (msg : string) :
  never_panics m -> m r = (Panic msg, r') -> False.
Proof. intros Hm H. exact (Hm r r' msg H). Qed.

Lemma ReadVarString_panic_inv (r r' : io.Reader) (msg : string) :
  ReadVarString r = (Panic msg, r') ->
  msg = makeslice_panic /\
  exists n : Z, maxAlloc < n <= 2 ^ 64 - 1 /\ r = VarInt_bytes n ++ r'.
Proof.
  unfold ReadVarString. intros H.
  apply bind_panic_inv in H.
  destruct H as [H|(n & r1 & E & H)];
    [now elim (never_panics_ReadVarInt _ _ _ H)|].
  apply ReadVarInt_ok_iff in E. destruct E as [Hn ->].
  apply bind_panic_inv in H.
  destruct H as [H|([] & r2 & E & H)].
  - unfold make_bytes in H.
    destruct (Z.ltb_spec maxAlloc n) as [Hlt|Hge]; [|discriminate H].
    injection H as <- <-. split; [reflexivity|].
    exists n. split; [lia|reflexivity].
  - exfalso. eapply never_panics_elim; [|exact H]. no_panic.
Qed.

(** X7. [ReadVarString] panics exactly when the stream starts with the
    canonical VarInt of a length above the allocation limit [maxAlloc]; the
    panic is that of [make], and nothing after the length has been read. *)
Theorem ReadVarString_panics_iff (r r' : io.Reader) (msg : string) :
  ReadVarString r = (Panic msg, r') <->
  msg = makeslice_panic /\
  exists n : Z, maxAlloc < n <= 2 ^ 64 - 1 /\ r = VarInt_bytes n ++ r'.
Proof.
  split.
  - apply ReadVarString_panic_inv.
  - intros (-> & n & Hn & ->).
    now apply ReadVarString_length_over_limit_panics.
Qed.

(** X21. [ReadShareInfo] panics exactly when the stream is 32 bytes (the
    previous share hash) followed by the canonical VarInt of a coinbase
    length above the allocation limit [maxAlloc]; no other stream makes it
    panic, with the segwit flag on or off. *)
Theorem ReadShareInfo_panics_iff (segwit : bool) (r r' : io.Reader)
    (msg : string) :
  ReadShareInfo segwit r = (Panic msg, r') <->
  msg = makeslice_panic /\
  exists (h : list byte) (n : Z),
    List.length h = 32%nat /\ maxAlloc < n <= 2 ^ 64 - 1 /\
    r = h ++ VarInt_bytes n ++ r'.
Proof.
  split.
  - unfold ReadShareInfo. intros H.
    apply bind_panic_inv in H. destruct H as [H|(sd & r1 & _ & H)].
    + unfold ReadShareData in H.
      apply bind_panic_inv in H. destruct H as [H|(o & r1 & E & H)];
        [now elim (never_panics_ReadChainHash _ _ _ H)|].
      apply ReadChainHash_ok_iff in E. destruct E as (h & -> & Hl & ->).
      apply bind_panic_inv in H. destruct H as [H|(cb & r2 & _ & H)].
      * apply ReadVarString_panic_inv in H.
        destruct H as (-> & n & Hn & ->).
        split; [reflexivity|]. now exists h, n.
      * exfalso. eapply never_panics_elim; [|exact H].
        unfold ReadShareData_PubKeyHash. no_panic.
    + exfalso. eapply never_panics_elim; [|exact H].
      unfold ReadSegwitData, ReadChainHashList, ReadTransactionHashRefList,
        ReadShareInfo_AbsWork.
      no_panic.
  - intros (-> & h & n & Hl & Hn & ->).
    unfold ReadShareInfo, ReadShareData, bind.
    rewrite ReadChainHash_app by exact Hl.
    now rewrite ReadVarString_length_over_limit_panics.
Qed.

(** ** The wire layout of a ShareInfo, byte by byte *)

Lemma hash_present_bytes (i : option chainhash.Hash) :
  hash_present i -> i = Some (hash_bytes i) /\ hash_ref_ok i.
Proof. intros (h & -> & Hl). now split. Qed.

Lemma ReadChainHash_ok_bytes (r r' : io.Reader) (o : option chainhash.Hash) :
  ReadChainHash r = (Ok o, r') <->
  hash_present o /\ r = hash_bytes o ++ r'.
Proof.
  rewrite ReadChainHash_ok_iff. split.
  - intros (h & -> & Hl & ->). split; [now exists h|reflexivity].
  - intros [(h & -> & Hl) ->]. now exists h.
Qed.

Lemma Forall_hash_present_map (hs : list chainhash.Hash) :
  Forall (fun h => List.length h = 32%nat) hs ->
  Forall hash_present (map Some hs).
Proof.
  intros H. apply Forall_map. eapply Forall_impl; [|exact H].
  intros h Hh. now exists h.
Qed.

Lemma Forall_hash_present_inv (l : list (option chainhash.Hash)) :
  Forall hash_present l ->
  Forall hash_ref_ok l /\ map (fun i => Some (hash_bytes i)) l = l.
Proof.
  induction 1 as [|i l Hi Hall [IH1 IH2]]; [now split|].
  destruct (hash_present_bytes i Hi) as [E Hok].
  split; [now constructor|]. cbn [map]. now rewrite <- E, IH2.
Qed.

Lemma ReadChainHashList_ok_bytes (r r' : io.Reader)
    (l : list (option chainhash.Hash)) :
  ReadChainHashList r = (Ok l, r') <->
  ChainHashList_wf l /\ r = ChainHashList_bytes l ++ r'.
Proof.
  unfold ChainHashList_wf, ChainHashList_bytes. split.
  - unfold ReadChainHashList, bind. intros H.
    destruct (ReadVarInt r) as [[n|e|msg] r1] eqn:E; try discriminate H.
    apply ReadVarInt_ok_iff in E. destruct E as [Hn ->].
    apply read_list_ChainHash_inv in H.
    destruct H as (hs & -> & Hlen & Hall & ->). cbn [app].
    assert (len (map Some hs) = n) as ->
      by (unfold len; rewrite length_map, Hlen; lia).
    split; [split; [lia|now apply Forall_hash_present_map]|].
    rewrite map_map. cbn [hash_bytes]. rewrite map_id.
    now rewrite <- app_assoc.
  - intros [[Hlen Hall] ->]. pose proof (len_nonneg l) as H0.
    destruct (Forall_hash_present_inv l Hall) as [Hok Hmap].
    unfold ReadChainHashList, bind.
    rewrite <- app_assoc, ReadVarInt_VarInt_bytes by lia.
    unfold len. rewrite Nat2Z.id.
    rewrite read_list_ChainHash_refs by exact Hok.
    cbn [app]. now rewrite Hmap.
Qed.

Lemma ReadSegwitData_ok_bytes (r r' : io.Reader) (sg : SegwitData) :
  ReadSegwitData r = (Ok sg, r') <->
  SegwitData_wf sg /\ r = SegwitData_bytes sg ++ r'.
Proof.
  unfold SegwitData_wf, SegwitData_bytes, ReadSegwitData, bind. split.
  - intros H.
    destruct (ReadChainHashList r) as [[link|e|msg] r1] eqn:E1;
      try discriminate H.
    destruct (ReadChainHash r1) as [[root|e|msg] r2] eqn:E2;
      try discriminate H.
    cbn [ret] in H. injection H as <- <-.
    cbn [TXIDMerkleLink WTXIDMerkleRoot].
    apply ReadChainHashList_ok_bytes in E1. destruct E1 as [Hl ->].
    apply ReadChainHash_ok_bytes in E2. destruct E2 as [Hr ->].
    split; [now split|]. now rewrite <- app_assoc.
  - intros [[Hl Hr] ->]. rewrite <- app_assoc.
    rewrite (proj2 (ReadChainHashList_ok_bytes _ _ (TXIDMerkleLink sg))
               (conj Hl eq_refl)).
    rewrite (proj2 (ReadChainHash_ok_bytes _ _ (WTXIDMerkleRoot sg))
               (conj Hr eq_refl)).
    destruct sg; reflexivity.
Qed.

Lemma le_field_bytes (n : nat) (v : Z) (r r' : io.Reader) :
  le_field n v r r' <->
  0 <= v < 2 ^ (8 * Z.of_nat n) /\ r = binary.PutUint n v ++ r'.
Proof.
  unfold le_field. split.
  - intros (b & Hl & -> & ->). pose proof (Uint_range b) as Hr.
    unfold len in Hr. rewrite Hl in Hr. split; [exact Hr|].
    now rewrite PutUint_Uint_len.
  - intros [Hv ->]. exists (binary.PutUint n v).
    split; [apply PutUint_length|]. split; [reflexivity|].
    symmetry. now apply Uint_PutUint_small.
Qed.

Lemma big_endian_length (n : nat) (v : Z) :
  List.length (big_endian n v) = n.
Proof.
  unfold big_endian. now rewrite length_map, length_rev, length_seq.
Qed.

Lemma SetBytes_big_endian (n : nat) (v : Z) :
  0 <= v < 2 ^ (8 * Z.of_nat n) -> big.SetBytes (big_endian n v) = v.
Proof.
  intros Hv. rewrite big_endian_rev_PutUint, SetBytes_rev.
  now apply Uint_PutUint_small.
Qed.

Lemma be_field_bytes (n : nat) (v : Z) (r r' : io.Reader) :
  be_field n v r r' <->
  0 <= v < 2 ^ (8 * Z.of_nat n) /\ r = big_endian n v ++ r'.
Proof.
  unfold be_field. split.
  - intros (b & Hl & -> & ->). pose proof (SetBytes_range b) as Hr.
    unfold len in Hr. rewrite Hl in Hr.
    replace (256 ^ Z.of_nat n) with (2 ^ (8 * Z.of_nat n)) in Hr
      by (rewrite Z.pow_mul_r by lia; reflexivity).
    split; [exact Hr|]. rewrite <- Hl at 1.
    now rewrite big_endian_SetBytes.
  - intros [Hv ->]. exists (big_endian n v).
    split; [apply big_endian_length|]. split; [reflexivity|].
    symmetry. now apply SetBytes_big_endian.
Qed.

Lemma ReadVarString_ok_iff (r r' : io.Reader) (val : list byte) :
  ReadVarString r = (Ok val, r') <->
  len val <= maxAlloc /\ r = VarInt_bytes (len val) ++ val ++ r'.
Proof.
  split.
  - unfold ReadVarString, bind. intros H.
    destruct (ReadVarInt r) as [[n|e|msg] r1] eqn:E; try discriminate H.
    apply ReadVarInt_ok_iff in E. destruct E as [Hn ->].
    unfold make_bytes in H.
    destruct (Z.ltb_spec maxAlloc n) as [H1|H1]; [discriminate H|].
    cbn [ret] in H.
    destruct (io.Read n r1) as [[[b err]|e|msg] r2] eqn:ER;
      try discriminate H.
    destruct (Z.eqb_spec (len b) n) as [Hb|Hb]; [|discriminate H].
    cbn [negb ret] in H. injection H as <- <-.
    apply Read_exact_inv in ER. subst r1 n. now split.
  - intros [Hl ->]. now apply ReadVarString_app.
Qed.

Lemma ReadShareData_PubKeyHash_ok_iff (r r' : io.Reader) (p : list byte) :
  ReadShareData_PubKeyHash r = (Ok p, r') <->
  List.length p = 20%nat /\ r = p ++ r'.
Proof.
  split.
  - intros H. destruct (Z.lt_ge_cases (len r) 20) as [Hs|Hs].
    + rewrite ReadShareData_PubKeyHash_short in H by exact Hs.
      discriminate H.
    + assert (List.length (firstn 20 r) = 20%nat) as Hl
        by (rewrite length_firstn; unfold len in Hs; lia).
      assert (r = firstn 20 r ++ skipn 20 r) as Hr
        by (symmetry; apply firstn_skipn).
      remember (firstn 20 r) as p0. remember (skipn 20 r) as q.
      rewrite Hr, ReadShareData_PubKeyHash_app in H by exact Hl.
      injection H as <- <-. now split.
  - intros [Hl ->]. now apply ReadShareData_PubKeyHash_app.
Qed.

Lemma PutUint_decode_int8 (b : list byte) :
  List.length b = 1%nat ->
  - 2 ^ 7 <= binary.decode binary.int8 b < 2 ^ 7 /\
  binary.PutUint 1 (binary.decode binary.int8 b) = b.
Proof.
  intros Hb. cbn [binary.decode].
  pose proof (Uint_range b) as Hr. unfold len in Hr. rewrite Hb in Hr.
  change (2 ^ (8 * Z.of_nat 1)) with 256 in Hr.
  destruct (Z.ltb_spec (binary.Uint b) 128).
  - split; [lia|]. now apply PutUint_Uint_len.
  - split; [lia|]. rewrite <- PutUint_mod.
    change (2 ^ (8 * Z.of_nat 1)) with 256.
    replace ((binary.Uint b - 256) mod 256) with (binary.Uint b mod 256)
      by (rewrite <- (Z.mod_add (binary.Uint b - 256) 1 256) by lia;
          f_equal; lia).
    change 256 with (2 ^ (8 * Z.of_nat 1)). rewrite PutUint_mod.
    now apply PutUint_Uint_len.
Qed.

(** A successful [binary.Read] of an unsigned kind, byte by byte. *)
Lemma binary_Read_unsigned_ok (t : binary.kind) (old v : Z)
    (r r' : io.Reader) :
  t <> binary.int8 ->
  binary.Read t old r = (Ok (v, None), r') ->
  0 <= v < 2 ^ (8 * Z.of_nat (binary.size t)) /\
  r = binary.PutUint (binary.size t) v ++ r'.
Proof.
  intros Ht H. apply binary_Read_ok_iff in H.
  destruct H as (b & Hl & -> & ->).
  assert (binary.decode t b = binary.Uint b) as ->
    by (destruct t; try reflexivity; now elim Ht).
  pose proof (Uint_range b) as Hr. unfold len in Hr. rewrite Hl in Hr.
  split; [exact Hr|]. now rewrite PutUint_Uint_len.
Qed.

Ltac read_field H x rx E :=
  match type of H with
  | context [match ?f ?r with (_, _) => _ end] =>
      destruct (f r) as [[x|?e|?msg] rx] eqn:E in H; try discriminate H
  end.

Ltac read_fixed H t x rx E :=
  match type of H with
  | context [match binary.Read t 0 ?r with (_, _) => _ end] =>
      let e := fresh "e" in
      destruct (binary_Read_cases t 0 r) as [(x & rx & E)|(e & rx & E)];
      rewrite E in H; cbn [check ret fail] in H; try discriminate H
  end.

Lemma ReadShareData_ok_bytes (r r' : io.Reader) (sd : ShareData) :
  ReadShareData r = (Ok sd, r') <->
  ShareData_wf sd /\ r = ShareData_bytes sd ++ r'.
Proof.
  split.
  - unfold ReadShareData, bind. intros H.
    read_field H prev r1 E0.
    read_field H cb r2 E1.
    read_fixed H binary.uint32 nonce r3 E2.
    read_field H pkh r4 E3.
    read_fixed H binary.uint8 ver r5 E4.
    read_fixed H binary.uint64 sub r6 E5.
    read_fixed H binary.uint16 don r7 E6.
    read_fixed H binary.int8 stale r8 E7.
    read_field H dv r9 E8.
    cbn [ret] in H. injection H as <- <-.
    apply ReadChainHash_ok_bytes in E0. destruct E0 as [Hprev ->].
    apply ReadVarString_ok_iff in E1. destruct E1 as [Hcb ->].
    apply binary_Read_unsigned_ok in E2; [|discriminate].
    destruct E2 as [Hnonce ->].
    apply ReadShareData_PubKeyHash_ok_iff in E3. destruct E3 as [Hpkh ->].
    apply binary_Read_unsigned_ok in E4; [|discriminate].
    destruct E4 as [Hver ->].
    apply binary_Read_unsigned_ok in E5; [|discriminate].
    destruct E5 as [Hsub ->].
    apply binary_Read_unsigned_ok in E6; [|discriminate].
    destruct E6 as [Hdon ->].
    apply binary_Read_ok_iff in E7. destruct E7 as (sb & Hsb & -> & ->).
    destruct (PutUint_decode_int8 sb Hsb) as [Hst Hstb].
    apply ReadVarInt_ok_iff in E8. destruct E8 as [Hdv ->].
    cbn [binary.size] in *.
    unfold ShareData_wf, ShareData_ok, ShareData_bytes.
    cbn [PreviousShareHash CoinBase Nonce PubKeyHash PubKeyHashVersion
         Subsidy Donation StaleInfo DesiredVersion].
    rewrite Hstb. rewrite <- !app_assoc.
    destruct (hash_present_bytes prev Hprev) as [_ Hok].
    repeat split; try assumption; lia.
  - intros [[Hok (h & Hprev & Hl)] ->].
    rewrite ReadShareData_decodes_bytes by exact Hok.
    destruct sd as [prev cb nonce pkh ver sub don stale dv].
    cbn [PreviousShareHash] in *. subst prev. reflexivity.
Qed.

Lemma ReadTransactionHashRefList_ok_bytes (r r' : io.Reader)
    (l : list TransactionHashRef) :
  ReadTransactionHashRefList r = (Ok l, r') <->
  TransactionHashRefList_wf l /\ r = TransactionHashRefList_bytes l ++ r'.
Proof.
  rewrite ReadTransactionHashRefList_ok_layout.
  unfold TransactionHashRefList_wf, TransactionHashRefList_bytes.
  rewrite <- app_assoc. tauto.
Qed.

Lemma field_decoded_bytes (j : nat) (segwit : bool) (r r' : io.Reader)
    (si : ShareInfo) :
  field_decoded j segwit r si r' <->
  field_wf j segwit si /\ r = field_bytes j segwit si ++ r'.
Proof.
  destruct j as [|[|[|[|[|[|[|[|[|[|j]]]]]]]]]];
    cbn [field_decoded field_wf field_bytes].
  - apply ReadShareData_ok_bytes.
  - destruct segwit; [apply ReadSegwitData_ok_bytes|].
    cbn [app]. split; intros [H1 H2]; now split.
  - apply ReadChainHashList_ok_bytes.
  - apply ReadTransactionHashRefList_ok_bytes.
  - apply ReadChainHash_ok_bytes.
  - apply (le_field_bytes 4).
  - apply (le_field_bytes 4).
  - apply (le_field_bytes 4).
  - apply (le_field_bytes 4).
  - apply (be_field_bytes 16).
  - cbn. split; [intros []|intros [[] _]].
Qed.

Lemma decoded_upto_bytes (k : nat) (segwit : bool) (r rk : io.Reader)
    (si : ShareInfo) :
  decoded_upto k segwit r si rk <->
  prefix_wf k segwit si /\ r = prefix_bytes k segwit si ++ rk.
Proof.
  revert rk. induction k as [|k IH]; intros rk.
  - cbn. split; [intros ->; now split|now intros [_ ->]].
  - cbn [decoded_upto prefix_wf prefix_bytes]. split.
    + intros (rj & Hpre & Hf).
      apply IH in Hpre. destruct Hpre as [Hwf ->].
      apply field_decoded_bytes in Hf. destruct Hf as [Hfw ->].
      split; [now split|]. now rewrite <- app_assoc.
    + intros [[Hwf Hfw] ->].
      exists (field_bytes k segwit si ++ rk). split.
      * apply IH. split; [exact Hwf|]. now rewrite <- app_assoc.
      * apply field_decoded_bytes. now split.
Qed.

(** C3. [ReadShareInfo] decodes, in this order and from these bytes of the
    stream: one ShareData; one SegwitData when the flag [segwit] is on,
    and nothing, from no byte, when it is off; the list of new
    transaction hashes (a VarInt count, then 32 bytes each); the list of
    transaction hash references (a VarInt count, then two VarInts each);
    the 32 bytes of the far share hash; maxBits, bits, timestamp and
    absHeight on four little-endian bytes each; absWork on 16 big-endian
    bytes.  It returns the ShareInfo [si] and leaves [r'] exactly when the
    stream is the wire layout of [si] followed by [r'], and it returns an
    error exactly when, after the wire layout of the fields before it, some
    field fails: the error is that of the failing field. *)
Theorem ReadShareInfo_wire_layout (segwit : bool) (r : io.Reader) :
  (forall (si : ShareInfo) (r' : io.Reader),
     ReadShareInfo segwit r = (Ok si, r') <->
     ShareInfo_wf segwit si /\ r = ShareInfo_bytes segwit si ++ r') /\
  (forall (e : error) (r' : io.Reader),
     ReadShareInfo segwit r = (Err e, r') <->
     exists (j : nat) (si : ShareInfo) (rj : io.Reader),
       (j < 10)%nat /\
       prefix_wf j segwit si /\
       r = prefix_bytes j segwit si ++ rj /\
       field_fails j segwit rj e r').
Proof.
  destruct (ReadShareInfo_field_order segwit r) as [Hok Herr].
  split.
  - intros si r'. rewrite Hok. apply decoded_upto_bytes.
  - intros e r'. rewrite Herr. split.
    + intros (j & si & rj & Hj & Hpre & Hfail).
      apply decoded_upto_bytes in Hpre. destruct Hpre as [Hwf Hr].
      now exists j, si, rj.
    + intros (j & si & rj & Hj & Hwf & Hr & Hfail).
      exists j, si, rj. split; [exact Hj|]. split; [|exact Hfail].
      apply decoded_upto_bytes. now split.
Qed.

(** The wire layout of the sample share is the sample stream. *)
Example ShareInfo_bytes_sample :
  ShareInfo_bytes false (sample_ShareInfo SegwitData_zero) =
    sample_ShareData_bytes ++ sample_tail_bytes /\
  ShareInfo_bytes true
    (sample_ShareInfo {| TXIDMerkleLink := [];
                         WTXIDMerkleRoot := Some (repeat x44 32) |}) =
    sample_ShareData_bytes ++ sample_SegwitData_bytes ++ sample_tail_bytes.
Proof. split; vm_compute; reflexivity. Qed.
